(** * MP3 compressor: a model of the compression pipeline of [App.tsx]

    The development follows the component [App] of the browser application:
    the preset catalog and the resolution of encode parameters, the
    two-phase metadata extraction [parseAudioInfo], the transcode run
    [handleCompress] against the FFmpeg engine, the size estimate and the
    result statistics.

    Conventions of the embedding.
    - ECMAScript numbers that hold counts (bitrates, sample rates, channel
      counts, byte sizes, percentages) are integers of [Z]; numbers that hold
      measured quantities (durations, quotients) are rationals of [Q], the
      values of the doubles. The arithmetic of the component on them is that
      of the doubles, [Double]: the exact result, rounded to the nearest
      number with a significand of 53 bits. Every division that a theorem
      relies on has a non-zero divisor.
    - [null] is [None]; a promise that settles is a value of [settled].
    - React state is the record [State]; a state setter is a function on it.
    - The FFmpeg engine, the media elements of the browser and the
      translation function [t] are collaborators outside the repository: they
      are parameters (records of functions, section variables). *)

From Stdlib Require Import ZArith QArith Qround Qpower Lia Lqa Ascii.
From stdpp Require Import gmap strings list fin_maps pretty.

Open Scope Z_scope.

(** ** ECMAScript primitives used by the component *)

Module Js.

(** [Math.round]: the nearest integer, a tie going towards plus infinity. *)
Definition Math_round (x : Q) : Z := Qfloor (x + (1 # 2)).

Definition Math_floor (x : Q) : Z := Qfloor x.

Definition Math_abs (n : Z) : Z := Z.abs n.

(** Truncation towards zero and the remainder [x % y] built on it. *)
Definition trunc (x : Q) : Z := Z.quot (Qnum x) (Z.pos (Qden x)).

Definition rem (x y : Q) : Q := (x - y * inject_Z (trunc (x / y)))%Q.

(** [n.toString()] and the interpolation of an integer in a template. *)
Definition toString (n : Z) : string := pretty n.

(** Truthiness of a [number | null]: [null] and [0] are falsy. *)
Definition truthy (v : option Z) : bool :=
  match v with
  | Some n => negb (n =? 0)
  | None => false
  end.

(** [s.padStart(n, c)] for a one-character filler. *)
Definition padStart (n : nat) (c : string) (s : string) : string :=
  String.concat "" (replicate (n - String.length s) c) +:+ s.

(** [s.endsWith(suffix)]. *)
Definition endsWith (s suffix : string) : bool :=
  let n := String.length s in
  let k := String.length suffix in
  if (k <=? n)%nat then String.eqb (String.substring (n - k) k s) suffix
  else false.

(** [s.includes(sub)]. *)
Fixpoint includes (s sub : string) : bool :=
  if String.prefix sub s then true
  else match s with
       | EmptyString => false
       | String _ rest => includes rest sub
       end.

End Js.

(** ** Arithmetic of the ECMAScript numbers

    A number is an IEEE 754 binary64 value. A finite one is a rational
    [m * 2 ^ e] with [|m| < 2 ^ 53] and [-1074 <= e]; [*], [/] and [-] return
    the number of this form nearest to the exact result, the one with an even
    [m] at a tie. Results beyond the largest finite double ([Infinity]) and
    [NaN] are outside the model; the theorems that bound the value of a
    computation bound its operands, so that none arises. *)

Module Double.

Definition pow2 (k : Z) : Q := (2 ^ k)%Q.

(** The integer part of the binary logarithm of a positive rational: the
    difference of the logarithms of numerator and denominator, or one less. *)
Definition ilog2 (x : Q) : Z :=
  let k := Z.log2 (Qnum x) - Z.log2 (Z.pos (Qden x)) in
  if Qle_bool (pow2 k) x then k else k - 1.

(** The nearest integer, the even one at a tie. *)
Definition rne (x : Q) : Z :=
  let f := Qfloor x in
  match Qcompare (x - inject_Z f) (1 # 2) with
  | Lt => f
  | Gt => f + 1
  | Eq => if Z.even f then f else f + 1
  end.

(** The exponent of the last place of a positive [x]: 52 binary places below
    its leading bit, and never below that of the subnormal numbers. *)
Definition exponent (x : Q) : Z := Z.max (ilog2 x - 52) (-1074).

Definition nearest (x : Q) : Q :=
  (inject_Z (rne (x / pow2 (exponent x))) * pow2 (exponent x))%Q.

(** The double nearest to a rational. *)
Definition round (x : Q) : Q :=
  match Qcompare x 0 with
  | Eq => 0%Q
  | Gt => nearest x
  | Lt => (- nearest (- x))%Q
  end.

(** [x * y], [x / y] and [x - y] on numbers. *)
Definition mul (x y : Q) : Q := round (x * y).

Definition div (x y : Q) : Q := round (x / y).

Definition sub (x y : Q) : Q := round (x - y).

End Double.

(** A settled promise: fulfilled with a value, or rejected with the message
    of the error. *)
Inductive settled (A : Type) : Type :=
| Resolved (value : A)
| Rejected (message : string).
Arguments Resolved {A} value.
Arguments Rejected {A} message.

(** ** Data model *)

Module File.
(** A browser [File]: [size] is the length of its content. *)
Record t : Type := mk { name : string; type : string; content : list Byte.byte }.
Definition size (f : t) : Z := Z.of_nat (length (content f)).
End File.

Module FileInfo.
Record t : Type := mk {
  name : string;
  size : Z;
  duration : Q;
  bitrate : Z;
  sampleRate : Z;
  channels : Z
}.
End FileInfo.

Module Result.
(** The outcome of a run: the blob read back and [blob.size]. *)
Record t : Type := mk { blob : list Byte.byte; size : Z }.
End Result.

Module Preset.
Record t : Type := mk {
  id : string;
  nameKey : string;
  descKey : string;
  bitrate : Z;
  sampleRate : option Z;
  channels : option Z
}.
End Preset.

Definition presets : list Preset.t :=
  [ Preset.mk "lossless" "presetLossless" "presetLosslessDesc" 320 None (Some 2);
    Preset.mk "high" "presetHigh" "presetHighDesc" 256 (Some 44100) (Some 2);
    Preset.mk "standard" "presetStandard" "presetStandardDesc" 192 (Some 44100) (Some 2);
    Preset.mk "medium" "presetMedium" "presetMediumDesc" 128 (Some 44100) (Some 2);
    Preset.mk "compact" "presetCompact" "presetCompactDesc" 96 (Some 32000) (Some 2);
    Preset.mk "voice" "presetVoice" "presetVoiceDesc" 64 (Some 22050) (Some 1);
    Preset.mk "minimal" "presetMinimal" "presetMinimalDesc" 32 (Some 16000) (Some 1);
    Preset.mk "custom" "presetCustom" "presetCustomDesc" 128 (Some 44100) (Some 2) ].

Definition bitrateOptions : list Z :=
  [320; 256; 192; 160; 128; 112; 96; 80; 64; 48; 32].

(** The [value] fields of [sampleRateOptions] and [channelOptions]; the label
    keys play no part in the pipeline. *)
Definition sampleRateOptions : list (Z * string) :=
  [ (48000, "sr48000"); (44100, "sr44100"); (32000, "sr32000");
    (22050, "sr22050"); (16000, "sr16000"); (11025, "sr11025") ].

Definition channelOptions : list (Z * string) :=
  [ (2, "stereo"); (1, "mono") ].

(** [formatDuration]. *)
Definition formatDuration (seconds : Q) : string :=
  let mins := Js.Math_floor (seconds / 60) in
  let secs := Js.Math_floor (Js.rem seconds 60) in
  Js.toString mins +:+ ":" +:+ Js.padStart 2 "0" (Js.toString secs).

(** ** Parameter resolution and the engine argument list *)

(** [presets.find(p => p.id === selectedPreset)]. *)
Definition findPreset (selectedPreset : string) : option Preset.t :=
  List.find (fun p => String.eqb (Preset.id p) selectedPreset) presets.

(** The three conditional expressions at the head of [handleCompress]. A
    missing preset is dereferenced only when the selection is not
    ["custom"]; the dereference of [undefined] throws, which is [None]. *)
Definition resolveField {A : Type} (selectedPreset : string) (custom : A)
    (field : Preset.t -> A) (preset : option Preset.t) : option A :=
  if String.eqb selectedPreset "custom" then Some custom
  else option_map field preset.

Record Resolved_params : Type := mkParams {
  r_bitrate : Z;
  r_sampleRate : option Z;
  r_channels : option Z
}.

Definition resolve (selectedPreset : string)
    (customBitrate customSampleRate customChannels : Z) : option Resolved_params :=
  let preset := findPreset selectedPreset in
  match resolveField selectedPreset customBitrate Preset.bitrate preset,
        resolveField selectedPreset (Some customSampleRate) Preset.sampleRate preset,
        resolveField selectedPreset (Some customChannels) Preset.channels preset with
  | Some bitrate, Some sampleRate, Some channels => Some (mkParams bitrate sampleRate channels)
  | _, _, _ => None
  end.

(** The argument list built by [handleCompress]. *)
Definition buildArgs (p : Resolved_params) : list string :=
  let args := ["-i"; "input.mp3"; "-b:a"; Js.toString (r_bitrate p) +:+ "k"] in
  let args :=
    if Js.truthy (r_sampleRate p)
    then args ++ ["-ar"; Js.toString (default 0 (r_sampleRate p))]
    else args in
  let args :=
    if Js.truthy (r_channels p)
    then args ++ ["-ac"; Js.toString (default 0 (r_channels p))]
    else args in
  args ++ ["-map"; "0:a"; "-y"; "output.mp3"].

(** ** The engine and the browser, as seen from the component *)

Abbreviation bytes := (list Byte.byte).

(** The workspace of the engine: the files staged in it, by name. *)
Abbreviation workspace := (gmap string bytes).

Module FFmpeg.
(** The four calls of the engine that [handleCompress] awaits. Each takes
    the workspace as it is when the call settles and gives the outcome
    together with the workspace it leaves. The return code of [exec] is not
    looked at by the component. *)
Record t : Type := mk {
  writeFile : string -> bytes -> workspace -> settled unit * workspace;
  exec : list string -> workspace -> settled Z * workspace;
  readFile : string -> workspace -> settled bytes * workspace;
  deleteFile : string -> workspace -> settled unit * workspace
}.

(** An engine over an in-memory file system: writing stores the file,
    reading and deleting a missing file fail, and the codec run by [exec]
    is left open. *)
Definition memfs (codec : list string -> workspace -> settled Z * workspace) : t :=
  {| writeFile := fun path data ws => (Resolved tt, <[path := data]> ws);
     exec := codec;
     readFile := fun path ws =>
       match ws !! path with
       | Some data => (Resolved data, ws)
       | None => (Rejected "ErrnoError: FS error", ws)
       end;
     deleteFile := fun path ws =>
       match ws !! path with
       | Some _ => (Resolved tt, delete path ws)
       | None => (Rejected "ErrnoError: FS error", ws)
       end |}.

(** A codec that encodes the staged input into the output named last in
    the argument list, and one that fails. *)
Definition encoding (encode : bytes -> bytes) : list string -> workspace -> settled Z * workspace :=
  fun args ws =>
    match ws !! "input.mp3", last args with
    | Some data, Some out => (Resolved 0, <[out := encode data]> ws)
    | _, _ => (Resolved 1, ws)
    end.

Definition failing (message : string) : list string -> workspace -> settled Z * workspace :=
  fun _ ws => (Rejected message, ws).
End FFmpeg.

Module Media.
(** What the browser answers to the three steps of [parseAudioInfo]:
    loading the object URL in an [Audio] element fires [onloadedmetadata]
    with a duration ([Some]) or [onerror] ([None]); the [FileReader] fires
    [onload] with the buffer or [onerror]; [decodeAudioData] fulfils with
    the sample rate and the number of channels or rejects. *)
Record Host : Type := mkHost {
  loadMetadata : File.t -> option Q;
  readAsArrayBuffer : File.t -> option bytes;
  decodeAudioData : bytes -> option (Z * Z)
}.

(** The temporary resources held open: object URLs created and not yet
    revoked, audio contexts created and not yet closed. *)
Record Resources : Type := mkResources { objectURLs : nat; audioContexts : nat }.

Definition createObjectURL (r : Resources) : Resources :=
  mkResources (S (objectURLs r)) (audioContexts r).
Definition revokeObjectURL (r : Resources) : Resources :=
  mkResources (Nat.pred (objectURLs r)) (audioContexts r).
Definition newAudioContext (r : Resources) : Resources :=
  mkResources (objectURLs r) (S (audioContexts r)).
Definition close (r : Resources) : Resources :=
  mkResources (objectURLs r) (Nat.pred (audioContexts r)).
End Media.

Section Component.

(** The translation function of [useI18n] and [fetchFile] of the FFmpeg
    utilities. *)
Variable t : string -> string.
Variable fetchFile : File.t -> settled bytes.

(** *** Metadata extraction *)

(** [parseAudioInfo]: the promise it returns, and the resources left open
    when it settles. *)
Definition parseAudioInfo (host : Media.Host) (audioFile : File.t)
    (res : Media.Resources) : settled FileInfo.t * Media.Resources :=
  let res := Media.createObjectURL res in
  match Media.loadMetadata host audioFile with
  | Some duration =>
      (* audio.onloadedmetadata *)
      let bitrate :=
        Js.Math_round
          (Double.div (Double.div (inject_Z (File.size audioFile * 8)) duration) 1000) in
      let res := Media.newAudioContext res in
      (* reader.readAsArrayBuffer(audioFile) is started, then the URL is revoked *)
      let res := Media.revokeObjectURL res in
      match Media.readAsArrayBuffer host audioFile with
      | Some arrayBuffer =>
          (* reader.onload *)
          match Media.decodeAudioData host arrayBuffer with
          | Some (sampleRate, numberOfChannels) =>
              (Resolved (FileInfo.mk (File.name audioFile) (File.size audioFile)
                           duration bitrate sampleRate numberOfChannels),
               Media.close res)
          | None =>
              (* Fallback if decodeAudioData fails *)
              (Resolved (FileInfo.mk (File.name audioFile) (File.size audioFile)
                           duration bitrate 44100 2),
               res)
          end
      | None =>
          (* reader.onerror *)
          (Rejected (t "cannotReadFile"), res)
      end
  | None =>
      (* audio.onerror *)
      let res := Media.revokeObjectURL res in
      (Rejected (t "cannotParseAudio"), res)
  end.

(** *** React state of [App] *)

(** The [dragging] flag and the two element refs only style the view and
    are left out. *)
Record State : Type := mkState {
  ffmpeg : option FFmpeg.t;
  loaded : bool;
  loading : bool;
  file : option File.t;
  fileInfo : option FileInfo.t;
  selectedPreset : string;
  customBitrate : Z;
  customSampleRate : Z;
  customChannels : Z;
  processing : bool;
  progress : Z;
  progressText : string;
  result : option Result.t;
  error : option string
}.

Definition setFfmpeg v (s : State) : State :=
  mkState v (loaded s) (loading s) (file s) (fileInfo s) (selectedPreset s)
    (customBitrate s) (customSampleRate s) (customChannels s) (processing s)
    (progress s) (progressText s) (result s) (error s).
Definition setLoaded v (s : State) : State :=
  mkState (ffmpeg s) v (loading s) (file s) (fileInfo s) (selectedPreset s)
    (customBitrate s) (customSampleRate s) (customChannels s) (processing s)
    (progress s) (progressText s) (result s) (error s).
Definition setLoading v (s : State) : State :=
  mkState (ffmpeg s) (loaded s) v (file s) (fileInfo s) (selectedPreset s)
    (customBitrate s) (customSampleRate s) (customChannels s) (processing s)
    (progress s) (progressText s) (result s) (error s).
Definition setFile v (s : State) : State :=
  mkState (ffmpeg s) (loaded s) (loading s) v (fileInfo s) (selectedPreset s)
    (customBitrate s) (customSampleRate s) (customChannels s) (processing s)
    (progress s) (progressText s) (result s) (error s).
Definition setFileInfo v (s : State) : State :=
  mkState (ffmpeg s) (loaded s) (loading s) (file s) v (selectedPreset s)
    (customBitrate s) (customSampleRate s) (customChannels s) (processing s)
    (progress s) (progressText s) (result s) (error s).
Definition setSelectedPreset v (s : State) : State :=
  mkState (ffmpeg s) (loaded s) (loading s) (file s) (fileInfo s) v
    (customBitrate s) (customSampleRate s) (customChannels s) (processing s)
    (progress s) (progressText s) (result s) (error s).
Definition setCustomBitrate v (s : State) : State :=
  mkState (ffmpeg s) (loaded s) (loading s) (file s) (fileInfo s) (selectedPreset s)
    v (customSampleRate s) (customChannels s) (processing s)
    (progress s) (progressText s) (result s) (error s).
Definition setCustomSampleRate v (s : State) : State :=
  mkState (ffmpeg s) (loaded s) (loading s) (file s) (fileInfo s) (selectedPreset s)
    (customBitrate s) v (customChannels s) (processing s)
    (progress s) (progressText s) (result s) (error s).
Definition setCustomChannels v (s : State) : State :=
  mkState (ffmpeg s) (loaded s) (loading s) (file s) (fileInfo s) (selectedPreset s)
    (customBitrate s) (customSampleRate s) v (processing s)
    (progress s) (progressText s) (result s) (error s).
Definition setProcessing v (s : State) : State :=
  mkState (ffmpeg s) (loaded s) (loading s) (file s) (fileInfo s) (selectedPreset s)
    (customBitrate s) (customSampleRate s) (customChannels s) v
    (progress s) (progressText s) (result s) (error s).
Definition setProgress v (s : State) : State :=
  mkState (ffmpeg s) (loaded s) (loading s) (file s) (fileInfo s) (selectedPreset s)
    (customBitrate s) (customSampleRate s) (customChannels s) (processing s)
    v (progressText s) (result s) (error s).
Definition setProgressText v (s : State) : State :=
  mkState (ffmpeg s) (loaded s) (loading s) (file s) (fileInfo s) (selectedPreset s)
    (customBitrate s) (customSampleRate s) (customChannels s) (processing s)
    (progress s) v (result s) (error s).
Definition setResult v (s : State) : State :=
  mkState (ffmpeg s) (loaded s) (loading s) (file s) (fileInfo s) (selectedPreset s)
    (customBitrate s) (customSampleRate s) (customChannels s) (processing s)
    (progress s) (progressText s) v (error s).
Definition setError v (s : State) : State :=
  mkState (ffmpeg s) (loaded s) (loading s) (file s) (fileInfo s) (selectedPreset s)
    (customBitrate s) (customSampleRate s) (customChannels s) (processing s)
    (progress s) (progressText s) (result s) v.

(** The initial values of the [useState] calls. *)
Definition initialState : State :=
  mkState None false true None None "medium" 128 44100 2 false 0 "" None None.

(** The parameters [handleCompress] resolves in a state. *)
Definition resolveState (s : State) : option Resolved_params :=
  resolve (selectedPreset s) (customBitrate s) (customSampleRate s) (customChannels s).

(** *** The transcode run *)

(** The point at which an invocation of [handleCompress] is suspended: the
    promise it awaits. *)
Inductive Await : Type :=
| AwaitFetchFile
| AwaitWriteFile (data : bytes)
| AwaitExec
| AwaitReadFile
| AwaitDeleteInput
| AwaitDeleteOutput.

(** An invocation in flight, with the values its closure captured. *)
Record Run : Type := mkRun {
  run_ffmpeg : FFmpeg.t;
  run_file : File.t;
  run_args : list string;
  run_await : Await
}.

Definition suspendAt (a : Await) (r : Run) : Run :=
  mkRun (run_ffmpeg r) (run_file r) (run_args r) a.

(** The application: the React state, the workspace of the engine and the
    invocations of [handleCompress] that have not settled. *)
Record World : Type := mkWorld {
  app : State;
  fs : workspace;
  runs : list Run
}.

Definition initialWorld : World := mkWorld initialState ∅ [].

(** The [catch] and [finally] blocks of [handleCompress]. *)
Definition catchCompress (message : string) (s : State) : State :=
  setError (Some (t "compressionFailed" +:+ " " +:+ message)) s.

Definition finallyCompress (s : State) : State :=
  setProgressText "" (setProcessing false s).

Definition failCompress (message : string) (s : State) : State :=
  finallyCompress (catchCompress message s).

(** [handleCompress], from its call to its first suspension. *)
Definition handleCompress (w : World) : World :=
  match ffmpeg (app w), file (app w), loaded (app w) with
  | Some engine, Some input, true =>
      let s := setProcessing true (app w) in
      let s := setProgress 0 s in
      let s := setProgressText (t "preparing") s in
      let s := setError None s in
      match resolveState (app w) with
      | Some params =>
          mkWorld s (fs w)
            (runs w ++ [mkRun engine input (buildArgs params) AwaitFetchFile])
      | None =>
          mkWorld
            (failCompress "Cannot read properties of undefined (reading 'bitrate')" s)
            (fs w) (runs w)
      end
  | _, _, _ => w
  end.

(** [handleCompress], from the settling of the awaited promise to the next
    suspension ([Some]) or to its return ([None]). *)
Definition resume (r : Run) (s : State) (ws : workspace)
    : State * workspace * option Run :=
  match run_await r with
  | AwaitFetchFile =>
      match fetchFile (run_file r) with
      | Resolved data => (s, ws, Some (suspendAt (AwaitWriteFile data) r))
      | Rejected message => (failCompress message s, ws, None)
      end
  | AwaitWriteFile data =>
      match FFmpeg.writeFile (run_ffmpeg r) "input.mp3" data ws with
      | (Resolved _, ws') => (s, ws', Some (suspendAt AwaitExec r))
      | (Rejected message, ws') => (failCompress message s, ws', None)
      end
  | AwaitExec =>
      match FFmpeg.exec (run_ffmpeg r) (run_args r) ws with
      | (Resolved _, ws') => (s, ws', Some (suspendAt AwaitReadFile r))
      | (Rejected message, ws') => (failCompress message s, ws', None)
      end
  | AwaitReadFile =>
      match FFmpeg.readFile (run_ffmpeg r) "output.mp3" ws with
      | (Resolved data, ws') =>
          (setResult (Some (Result.mk data (Z.of_nat (length data)))) s, ws',
           Some (suspendAt AwaitDeleteInput r))
      | (Rejected message, ws') => (failCompress message s, ws', None)
      end
  | AwaitDeleteInput =>
      match FFmpeg.deleteFile (run_ffmpeg r) "input.mp3" ws with
      | (Resolved _, ws') => (s, ws', Some (suspendAt AwaitDeleteOutput r))
      | (Rejected message, ws') => (failCompress message s, ws', None)
      end
  | AwaitDeleteOutput =>
      match FFmpeg.deleteFile (run_ffmpeg r) "output.mp3" ws with
      | (Resolved _, ws') => (finallyCompress s, ws', None)
      | (Rejected message, ws') => (failCompress message s, ws', None)
      end
  end.

(** The promise awaited by the [i]-th invocation in flight settles. *)
Definition settle (i : nat) (w : World) : World :=
  match runs w !! i with
  | Some r =>
      match resume r (app w) (fs w) with
      | (s, ws, Some r') => mkWorld s ws (<[i := r']> (runs w))
      | (s, ws, None) => mkWorld s ws (delete i (runs w))
      end
  | None => w
  end.

(** The first invocation in flight is driven until it returns; an
    invocation is suspended six times at most. *)
Fixpoint drive (n : nat) (w : World) : World :=
  match n with
  | O => w
  | S k => match runs w with
           | [] => w
           | _ :: _ => drive k (settle 0 w)
           end
  end.

Definition compress (w : World) : World := drive 6 (handleCompress w).

(** *** The other handlers *)

(** The [try]/[catch]/[finally] of [loadFFmpeg], once the load settled. *)
Definition loadFFmpeg (r : settled FFmpeg.t) (s : State) : State :=
  let s :=
    match r with
    | Resolved ffmpegInstance => setLoaded true (setFfmpeg (Some ffmpegInstance) s)
    | Rejected _ => setError (Some (t "loadEngineFailed")) s
    end in
  setLoading false s.

(** The handler of the engine's [progress] event. *)
Definition onProgress (progress time : Q) (s : State) : State :=
  let s := setProgress (Js.Math_round (Double.mul progress 100)) s in
  if Qlt_le_dec 0 time
  then setProgressText
         (t "processing" +:+ " " +:+ formatDuration (Double.div time 1000000)) s
  else s.

(** [handleFileSelect], up to the call of [parseAudioInfo], and from the
    settling of that promise. *)
Definition handleFileSelect (selectedFile : File.t) (s : State) : State :=
  if negb (Js.includes (File.type selectedFile) "audio")
     && negb (Js.endsWith (File.name selectedFile) ".mp3")
  then setError (Some (t "pleaseSelectAudio")) s
  else setFile (Some selectedFile) (setResult None (setError None s)).

Definition handleFileParsed (r : settled FileInfo.t) (s : State) : State :=
  match r with
  | Resolved info => setFileInfo (Some info) s
  | Rejected message => setError (Some (t "parseFileError" +:+ " " +:+ message)) s
  end.

(** The [onClick] of a preset card. *)
Definition onPresetClick (id : string) (s : State) : State :=
  match file s, result s with
  | Some _, None => setSelectedPreset id s
  | _, _ => s
  end.

(** *** The view: what is rendered and which events it lets through *)

(** The events that change the application: the settling of a pending
    promise, an event of the engine, or an action of the user on an element
    of the view. *)
Inductive Event : Type :=
| LoadSettled (r : settled FFmpeg.t)
| FileChosen (selectedFile : File.t)
| ParseSettled (r : settled FileInfo.t)
| PresetClicked (id : string)
| BitrateChanged (value : Z)
| SampleRateChanged (value : Z)
| ChannelsChanged (value : Z)
| CompressClicked
| RunSettled (i : nat)
| EngineProgress (progress time : Q)
| RecompressClicked.

(** The handler attached to each event. *)
Definition handle (e : Event) (w : World) : World :=
  match e with
  | LoadSettled r => mkWorld (loadFFmpeg r (app w)) (fs w) (runs w)
  | FileChosen selectedFile => mkWorld (handleFileSelect selectedFile (app w)) (fs w) (runs w)
  | ParseSettled r => mkWorld (handleFileParsed r (app w)) (fs w) (runs w)
  | PresetClicked id => mkWorld (onPresetClick id (app w)) (fs w) (runs w)
  | BitrateChanged value => mkWorld (setCustomBitrate value (app w)) (fs w) (runs w)
  | SampleRateChanged value => mkWorld (setCustomSampleRate value (app w)) (fs w) (runs w)
  | ChannelsChanged value => mkWorld (setCustomChannels value (app w)) (fs w) (runs w)
  | CompressClicked => handleCompress w
  | RunSettled i => settle i w
  | EngineProgress progress time => mkWorld (onProgress progress time (app w)) (fs w) (runs w)
  | RecompressClicked => mkWorld (setResult None (app w)) (fs w) (runs w)
  end.

(** The custom selects are rendered when the custom preset is selected, and
    are disabled by [!file || !!result]. *)
Definition customSelectEnabled (s : State) : bool :=
  String.eqb (selectedPreset s) "custom" && bool_decide (is_Some (file s))
  && bool_decide (result s = None).

(** Whether the view, as rendered in the state, lets the event reach its
    handler: the element is rendered, it is not disabled, and a select offers
    the value. The load settles once, while [loading] holds; the upload area
    ignores the user while [loading] holds. *)
Definition enabled (e : Event) (w : World) : bool :=
  let s := app w in
  match e with
  | LoadSettled _ => loading s
  | FileChosen _ => negb (loading s)
  | ParseSettled _ => true
  | PresetClicked id => bool_decide (id ∈ map Preset.id presets)
  | BitrateChanged value =>
      customSelectEnabled s && bool_decide (value ∈ bitrateOptions)
  | SampleRateChanged value =>
      customSelectEnabled s && bool_decide (value ∈ map fst sampleRateOptions)
  | ChannelsChanged value =>
      customSelectEnabled s && bool_decide (value ∈ map fst channelOptions)
  | CompressClicked =>
      (* {file && !result && <button disabled={processing || !loaded}>} *)
      bool_decide (is_Some (file s)) && bool_decide (result s = None)
      && negb (processing s || negb (loaded s))
  | RunSettled i => bool_decide (i < length (runs w))%nat
  | EngineProgress _ _ => true
  | RecompressClicked =>
      bool_decide (is_Some (result s)) && bool_decide (is_Some (fileInfo s))
  end.

Definition dispatch (e : Event) (w : World) : World :=
  if enabled e w then handle e w else w.

Inductive reachable : World -> Prop :=
| reachable_initial : reachable initialWorld
| reachable_dispatch (e : Event) (w : World) :
    reachable w -> reachable (dispatch e w).

(** The estimate block. *)
Record EstimateInfo : Type := mkEstimateInfo {
  estimatedSize : Z;
  compressionRatio : Z;
  ratioClassName : string;
  ratioText : string
}.

Definition estimateInfo (s : State) : option EstimateInfo :=
  match file s, fileInfo s, result s, processing s with
  | Some _, Some info, None, false =>
      match resolveField (selectedPreset s) (customBitrate s) Preset.bitrate
              (findPreset (selectedPreset s)) with
      | Some bitrate =>
          let estimatedSize :=
            Js.Math_round
              (Double.mul (Double.mul (inject_Z bitrate) 125) (FileInfo.duration info)) in
          let compressionRatio :=
            Js.Math_round
              (Double.mul
                 (Double.sub 1
                    (Double.div (inject_Z estimatedSize) (inject_Z (FileInfo.size info))))
                 100) in
          Some (mkEstimateInfo estimatedSize compressionRatio
                  (if 0 <? compressionRatio then "positive" else "negative")
                  (if 0 <? compressionRatio
                   then "-" +:+ Js.toString compressionRatio +:+ "%"
                   else "+" +:+ Js.toString (Js.Math_abs compressionRatio) +:+ "%"))
      | None => None
      end
  | _, _, _, _ => None
  end.

(** The third item of the result statistics. *)
Record SavedStat : Type := mkSavedStat {
  saved : Z;
  statLabel : string;
  statClassName : string;
  statText : string
}.

Definition savedStat (s : State) : option SavedStat :=
  match result s, fileInfo s with
  | Some res, Some info =>
      let saved :=
        Js.Math_round
          (Double.mul
             (Double.sub 1
                (Double.div (inject_Z (Result.size res)) (inject_Z (FileInfo.size info))))
             100) in
      Some (if 0 <=? saved
            then mkSavedStat saved (t "saved") "stat-value highlight"
                   (Js.toString saved +:+ "%")
            else mkSavedStat saved (t "increased") "stat-value negative"
                   (Js.toString (Js.Math_abs saved) +:+ "%"))
  | _, _ => None
  end.

End Component.

(** ** Predicates on states and the argument list of the specification *)

(** The selection is legal: the selected preset is one of the catalog and
    each custom value is one offered by its select. *)
Definition legalSelection (s : State) : Prop :=
  selectedPreset s ∈ map Preset.id presets /\
  customBitrate s ∈ bitrateOptions /\
  customSampleRate s ∈ map fst sampleRateOptions /\
  customChannels s ∈ map fst channelOptions.

(** Runs are serialised: no invocation of [handleCompress] is in flight, or
    exactly one is and [processing] holds. *)
Definition serialised (w : World) : Prop :=
  match runs w with
  | [] => True
  | [_] => processing (app w) = true
  | _ :: _ :: _ => False
  end.

(** The argument list as the specification words it: input reference,
    bitrate directive, sample-rate directive unless pass-through, channel
    directive unless pass-through, map directive, force-overwrite, output
    reference. *)
Definition argumentList (p : Resolved_params) : list string :=
  ["-i"; "input.mp3"]
  ++ ["-b:a"; Js.toString (r_bitrate p) +:+ "k"]
  ++ match r_sampleRate p with
     | Some sampleRate => ["-ar"; Js.toString sampleRate]
     | None => []
     end
  ++ match r_channels p with
     | Some channels => ["-ac"; Js.toString channels]
     | None => []
     end
  ++ ["-map"; "0:a"] ++ ["-y"] ++ ["output.mp3"].

(** Membership in a list written out: one case per element, each closed by
    the given tactic; [absent] refutes a membership that no element gives. *)
Ltac enumerate H tac :=
  repeat (apply elem_of_cons in H as [H | H]; [tac|]);
  apply elem_of_nil in H; contradiction.

Ltac absent H := enumerate H discriminate.

(** ** A sample environment

    Concrete collaborators on which the model is run: a translation function
    without a table (the lookup of [useI18n] then gives back the key), a
    [fetchFile] that reads the content of the file, an engine whose codec
    keeps the first byte of the input and one whose codec aborts, and a
    browser that loads the metadata of a file but cannot decode its samples. *)

Module Sample.

Definition t (key : string) : string := key.

Definition fetchFile (f : File.t) : settled bytes := Resolved (File.content f).

Definition song : File.t :=
  File.mk "song.mp3" "audio/mpeg" (replicate 16 Byte.x49).

Definition encoder : FFmpeg.t := FFmpeg.memfs (FFmpeg.encoding (take 1)).

Definition aborting : FFmpeg.t := FFmpeg.memfs (FFmpeg.failing "Aborted()").

(** The engine has loaded and [song] has been chosen. *)
Definition ready (engine : FFmpeg.t) : World :=
  dispatch t fetchFile (FileChosen song)
    (dispatch t fetchFile (LoadSettled (Resolved engine)) initialWorld).

(** A run has been started and is suspended at its first await. *)
Definition running : World := dispatch t fetchFile CompressClicked (ready encoder).

(** The custom preset with 320 kbps, 16000 Hz, one channel. *)
Definition customised : World :=
  dispatch t fetchFile (ChannelsChanged 1)
    (dispatch t fetchFile (SampleRateChanged 16000)
       (dispatch t fetchFile (BitrateChanged 320)
          (dispatch t fetchFile (PresetClicked "custom") (ready encoder)))).

Definition undecodable : Media.Host :=
  Media.mkHost (fun _ => Some (1 # 1024)) (fun f => Some (File.content f)) (fun _ => None).

Definition decodable : Media.Host :=
  Media.mkHost (fun _ => Some (1 # 1024)) (fun f => Some (File.content f))
    (fun _ => Some (48000, 1)).

(** A file of [size] bytes lasting [duration] seconds has been parsed; the
    medium preset (128 kbps) is selected. *)
Definition parsed (size : Z) (duration : Q) : State :=
  setFileInfo (Some (FileInfo.mk "song.mp3" size duration 350 44100 2))
    (app (ready encoder)).

(** A file of [size] bytes has been parsed and compressed to [outputSize]
    bytes. *)
Definition compressed (size outputSize : Z) : State :=
  setResult (Some (Result.mk [] outputSize))
    (setFileInfo (Some (FileInfo.mk "song.mp3" size 240 128 44100 2))
       (app (ready encoder))).

End Sample.

(** ** Further functions of the component *)

(** [x.toFixed(2)]: the sign, then the integer [n] nearest to [|x| * 100]
    (the larger one at a tie) written with two decimals. [formatFileSize]
    applies it to the quotient of a byte count by a power of two, a number
    that a double holds exactly. *)
Definition toFixed2 (x : Q) : string :=
  let (sign, magnitude) := if Qlt_le_dec x 0 then ("-", (- x)%Q) else ("", x) in
  let n := Js.Math_round (magnitude * 100) in
  sign +:+ Js.toString (n / 100) +:+ "." +:+ Js.padStart 2 "0" (Js.toString (n mod 100)).

(** [formatFileSize]. The byte counts it is applied to are integers. *)
Definition formatFileSize (bytes : Z) : string :=
  if bytes <? 1024 then Js.toString bytes +:+ " B"
  else if bytes <? 1024 * 1024 then toFixed2 (inject_Z bytes / 1024) +:+ " KB"
  else toFixed2 (inject_Z bytes / (1024 * 1024)) +:+ " MB".

(** The regular expression [/\.[^/.]+$/] of [handleDownload]:
    [extensionChars] matches [[^/.]+$] against a whole string, and
    [stripExtension] is [name.replace(/\.[^/.]+$/, '')], the match being
    tried at each position from the left. *)
Fixpoint extensionChars (s : string) : bool :=
  match s with
  | EmptyString => false
  | String c rest =>
      negb (Ascii.eqb c "/"%char) && negb (Ascii.eqb c "."%char)
      && match rest with
         | EmptyString => true
         | String _ _ => extensionChars rest
         end
  end.

Fixpoint stripExtension (name : string) : string :=
  match name with
  | EmptyString => EmptyString
  | String c rest =>
      if Ascii.eqb c "."%char && extensionChars rest then EmptyString
      else String c (stripExtension rest)
  end.

(** [handleDownload]: the name under which the result is offered, [None]
    when the handler returns early or the preset lookup throws. *)
Definition handleDownload (s : State) : option string :=
  match result s, file s with
  | Some _, Some f =>
      let originalName := stripExtension (File.name f) in
      match resolveField (selectedPreset s) (customBitrate s) Preset.bitrate
              (findPreset (selectedPreset s)) with
      | Some bitrate => Some (originalName +:+ "_" +:+ Js.toString bitrate +:+ "kbps.mp3")
      | None => None
      end
  | _, _ => None
  end.

(** The test at the head of [handleFileSelect]. *)
Definition isAudioFile (f : File.t) : bool :=
  Js.includes (File.type f) "audio" || Js.endsWith (File.name f) ".mp3".

(** The number of promises an invocation of [handleCompress] still awaits
    at most. *)
Definition remaining (a : Await) : nat :=
  match a with
  | AwaitFetchFile => 6
  | AwaitWriteFile _ => 5
  | AwaitExec => 4
  | AwaitReadFile => 3
  | AwaitDeleteInput => 2
  | AwaitDeleteOutput => 1
  end.

(** Invariants of the application. *)
Definition engineConsistent (s : State) : Prop :=
  (loading s = true -> loaded s = false /\ ffmpeg s = None) /\
  (loaded s = true <-> is_Some (ffmpeg s)).

Definition fileKept (w : World) : Prop :=
  (is_Some (result (app w)) -> is_Some (file (app w))) /\
  (runs w <> [] -> is_Some (file (app w))).

Definition quiescent (w : World) : Prop :=
  runs w = [] -> processing (app w) = false.

(** ** Localisation ([useI18n]) *)

Module I18n.
Section Provider.

(** The table of [./i18n], outside the repository: [translations lang] is
    [translations[lang]] when that is an object, and the object maps a key
    to its string, if any. *)
Variable translations : string -> option (string -> option string).

Definition STORAGE_KEY : string := "mp3-compress-language".

(** The provider: the [language] state and the local storage. *)
Record Provider : Type := mkProvider {
  language : string;
  localStorage : gmap string string
}.

Definition getInitialLanguage (storage : gmap string string) : string :=
  match storage !! STORAGE_KEY with
  | Some stored =>
      if negb (String.eqb stored "") && bool_decide (is_Some (translations stored))
      then stored
      else "en"
  | None => "en"
  end.

(** Mounting the provider. *)
Definition mount (storage : gmap string string) : Provider :=
  mkProvider (getInitialLanguage storage) storage.

Definition setLanguage (lang : string) (p : Provider) : Provider :=
  mkProvider lang (<[STORAGE_KEY := lang]> (localStorage p)).

(** [t]: [translations[language][key] || key]; [None] when
    [translations[language]] is undefined and the lookup throws. *)
Definition t (p : Provider) (key : string) : option string :=
  match translations (language p) with
  | Some table =>
      match table key with
      | Some text => if String.eqb text "" then Some key else Some text
      | None => Some key
      end
  | None => None
  end.

End Provider.
End I18n.

(** ** Further sample collaborators *)

Module Fixture.

(** An in-memory engine whose workspace does not allow deletion. *)
Definition undeletable (encode : bytes -> bytes) : FFmpeg.t :=
  FFmpeg.mk
    (fun path data ws => (Resolved tt, <[path := data]> ws))
    (FFmpeg.encoding encode)
    (FFmpeg.readFile (FFmpeg.memfs (FFmpeg.encoding encode)))
    (fun path ws => (Rejected "ErrnoError: FS error", ws)).

Definition speech : File.t :=
  File.mk "speech.final.mp3" "" (replicate 8 Byte.x49).

Definition recording : File.t :=
  File.mk "recording" "audio/mpeg" (replicate 8 Byte.x49).

(** A track of 570667 bytes for which the browser reports a duration of
    23.839874673629243 seconds, the double [6710328168544749 / 2 ^ 48]; its
    samples decode. *)
Definition track : File.t :=
  File.mk "track.mp3" "audio/mpeg" (replicate (Z.to_nat 570667) Byte.x49).

Definition trackDuration : Q := 6710328168544749 # 281474976710656.

Definition player : Media.Host :=
  Media.mkHost (fun _ => Some trackDuration) (fun f => Some (File.content f))
    (fun _ => Some (44100, 2)).

(** [n] settlements of the promise awaited by the first run in flight. *)
Fixpoint afterSettlements (n : nat) (w : World) : World :=
  match n with
  | O => w
  | S k => afterSettlements k (dispatch Sample.t Sample.fetchFile (RunSettled 0) w)
  end.

(** The run of [Sample.running] has returned. *)
Definition finished : World := afterSettlements 6 Sample.running.

(** The extraction of the chosen file failed, then a run was started and
    has returned. *)
Definition unparsed : World :=
  afterSettlements 6
    (dispatch Sample.t Sample.fetchFile CompressClicked
       (dispatch Sample.t Sample.fetchFile (ParseSettled (Rejected "cannotParseAudio"))
          (Sample.ready Sample.encoder))).

(** English and German tables with one key each. *)
Definition translations (lang : string) : option (string -> option string) :=
  if String.eqb lang "en"
  then Some (fun key => if String.eqb key "title" then Some "MP3 Compressor" else None)
  else if String.eqb lang "de"
  then Some (fun key => if String.eqb key "title" then Some "MP3-Kompressor" else None)
  else None.

End Fixture.

(** * Properties *)

(** ** Rounding *)

Lemma Math_round_nearest (x : Q) :
  (inject_Z (Js.Math_round x) - (1 # 2) <= x /\
   x < inject_Z (Js.Math_round x) + (1 # 2))%Q.
Proof.
  unfold Js.Math_round.
  pose proof (Qfloor_le (x + (1 # 2))) as Hlo.
  pose proof (Qlt_floor (x + (1 # 2))) as Hhi.
  rewrite inject_Z_plus in Hhi. change (inject_Z 1) with 1%Q in Hhi.
  split; lra.
Qed.

Lemma Math_round_comp (x y : Q) : (x == y)%Q -> Js.Math_round x = Js.Math_round y.
Proof. intros Hxy. unfold Js.Math_round. now rewrite Hxy. Qed.

Lemma Math_round_monotone (x y : Q) : (x <= y)%Q -> Js.Math_round x <= Js.Math_round y.
Proof. intros Hxy. unfold Js.Math_round. apply Qfloor_resp_le. lra. Qed.

(** Two numbers less than [1 # 2] apart round to integers at most one
    apart. *)
Lemma Math_round_close (x y : Q) :
  (x - y <= 1 # 2)%Q -> (y - x <= 1 # 2)%Q ->
  Js.Math_round x - 1 <= Js.Math_round y <= Js.Math_round x + 1.
Proof.
  intros Hxy Hyx.
  destruct (Math_round_nearest x) as [Xlo Xhi].
  destruct (Math_round_nearest y) as [Ylo Yhi].
  assert (inject_Z (Js.Math_round x) < inject_Z (Js.Math_round y + 2))%Q as H1
    by (rewrite inject_Z_plus; change (inject_Z 2) with 2%Q; lra).
  assert (inject_Z (Js.Math_round y) < inject_Z (Js.Math_round x + 2))%Q as H2
    by (rewrite inject_Z_plus; change (inject_Z 2) with 2%Q; lra).
  rewrite <- Zlt_Qlt in H1, H2. lia.
Qed.

(** ** Double-precision rounding *)

Lemma pow2_pos (k : Z) : (0 < Double.pow2 k)%Q.
Proof. apply Qpower_0_lt. reflexivity. Qed.

Lemma pow2_plus (a b : Z) : (Double.pow2 (a + b) == Double.pow2 a * Double.pow2 b)%Q.
Proof. apply Qpower_plus. discriminate. Qed.

Lemma pow2_le (a b : Z) : a <= b -> (Double.pow2 a <= Double.pow2 b)%Q.
Proof. intros Hab. apply Qpower_le_compat_l; [exact Hab|discriminate]. Qed.

Lemma pow2_lt (a b : Z) : a < b -> (Double.pow2 a < Double.pow2 b)%Q.
Proof. intros Hab. apply Qpower_lt_compat_l; [exact Hab|reflexivity]. Qed.

Lemma pow2_inject (a : Z) : 0 <= a -> (inject_Z (2 ^ a) == Double.pow2 a)%Q.
Proof. intros Ha. apply (Zpower_Qpower 2 a Ha). Qed.

Lemma pow2_succ (a : Z) : (Double.pow2 (a + 1) == 2 * Double.pow2 a)%Q.
Proof. rewrite pow2_plus. change (Double.pow2 1) with 2%Q. ring. Qed.

(** [ilog2 x] is the integer part of the binary logarithm of a positive [x]. *)
Lemma ilog2_spec (x : Q) :
  (0 < x)%Q ->
  (Double.pow2 (Double.ilog2 x) <= x)%Q /\ (x < Double.pow2 (Double.ilog2 x + 1))%Q.
Proof.
  intros Hx. unfold Double.ilog2.
  destruct x as [n d]. cbn [Qnum Qden].
  assert (0 < n) as Hn by (unfold Qlt in Hx; cbn in Hx; lia).
  pose proof (Z.log2_spec n Hn) as [Hn1 Hn2].
  pose proof (Z.log2_spec (Z.pos d) ltac:(lia)) as [Hd1 Hd2].
  pose proof (Z.log2_nonneg n) as Ha. pose proof (Z.log2_nonneg (Z.pos d)) as Hb.
  set (a := Z.log2 n) in *. set (b := Z.log2 (Z.pos d)) in *.
  assert (Double.pow2 a <= inject_Z n)%Q as Q1
    by (rewrite <- pow2_inject by lia; rewrite <- Zle_Qle; exact Hn1).
  assert (inject_Z n < 2 * Double.pow2 a)%Q as Q2.
  { rewrite <- pow2_succ, <- pow2_inject by lia. rewrite <- Zlt_Qlt.
    replace (a + 1) with (Z.succ a) by lia. exact Hn2. }
  assert (Double.pow2 b <= inject_Z (Z.pos d))%Q as Q3
    by (rewrite <- pow2_inject by lia; rewrite <- Zle_Qle; exact Hd1).
  assert (inject_Z (Z.pos d) < 2 * Double.pow2 b)%Q as Q4.
  { rewrite <- pow2_succ, <- pow2_inject by lia. rewrite <- Zlt_Qlt.
    replace (b + 1) with (Z.succ b) by lia. exact Hd2. }
  pose proof (pow2_pos a) as Pa. pose proof (pow2_pos b) as Pb.
  pose proof (pow2_pos (a - b)) as Pk.
  assert (Double.pow2 a == Double.pow2 (a - b) * Double.pow2 b)%Q as Hk
    by (rewrite <- pow2_plus; replace (a - b + b) with a by lia; reflexivity).
  assert ((n # d) == inject_Z n / inject_Z (Z.pos d))%Q as Hq by apply Qmake_Qdiv.
  assert (0 < inject_Z (Z.pos d))%Q as Pd by lra.
  (* x lies strictly between 2^(k-1) and 2^(k+1) *)
  assert ((n # d) < 2 * Double.pow2 (a - b))%Q as Hupper.
  { rewrite Hq. apply Qlt_shift_div_r; [exact Pd|].
    apply Qlt_le_trans with (2 * Double.pow2 a)%Q; [exact Q2|].
    rewrite Hk.
    assert (Double.pow2 (a - b) * Double.pow2 b
            <= Double.pow2 (a - b) * inject_Z (Z.pos d))%Q
      by (apply Qmult_le_l; assumption).
    lra. }
  assert (Double.pow2 (a - b) < 2 * (n # d))%Q as Hlower.
  { rewrite Hq.
    assert (Double.pow2 (a - b) * inject_Z (Z.pos d) < 2 * inject_Z n)%Q as H.
    { apply Qlt_le_trans with (Double.pow2 (a - b) * (2 * Double.pow2 b))%Q.
      - apply Qmult_lt_l; assumption.
      - lra. }
    assert (Double.pow2 (a - b) < 2 * inject_Z n / inject_Z (Z.pos d))%Q
      by (apply Qlt_shift_div_l; assumption).
    unfold Qdiv in *. lra. }
  destruct (Qle_bool (Double.pow2 (a - b)) (n # d)) eqn:Hcmp.
  - apply Qle_bool_iff in Hcmp. split; [exact Hcmp|]. rewrite pow2_succ. exact Hupper.
  - assert (~ (Double.pow2 (a - b) <= (n # d))%Q) as Hnot
      by (intros H; apply Qle_bool_iff in H; congruence).
    apply Qnot_le_lt in Hnot.
    replace (a - b - 1 + 1) with (a - b) by lia. split; [|exact Hnot].
    assert (Double.pow2 (a - b) == 2 * Double.pow2 (a - b - 1))%Q as Hhalf
      by (rewrite <- pow2_succ; replace (a - b - 1 + 1) with (a - b) by lia; reflexivity).
    lra.
Qed.

Lemma ilog2_unique (x : Q) (k : Z) :
  (Double.pow2 k <= x)%Q -> (x < Double.pow2 (k + 1))%Q -> Double.ilog2 x = k.
Proof.
  intros Hlo Hhi.
  assert (0 < x)%Q as Hx by (pose proof (pow2_pos k); lra).
  destruct (ilog2_spec x Hx) as [Slo Shi].
  destruct (Z.lt_trichotomy (Double.ilog2 x) k) as [Hlt|[Heq|Hgt]]; [|exact Heq|].
  - pose proof (pow2_le (Double.ilog2 x + 1) k ltac:(lia)). lra.
  - pose proof (pow2_le (k + 1) (Double.ilog2 x) ltac:(lia)). lra.
Qed.

Lemma ilog2_monotone (x y : Q) :
  (0 < x)%Q -> (x <= y)%Q -> Double.ilog2 x <= Double.ilog2 y.
Proof.
  intros Hx Hxy.
  destruct (ilog2_spec x Hx) as [Xlo Xhi].
  destruct (ilog2_spec y ltac:(lra)) as [Ylo Yhi].
  destruct (Z.le_gt_cases (Double.ilog2 x) (Double.ilog2 y)) as [H|H]; [exact H|].
  pose proof (pow2_le (Double.ilog2 y + 1) (Double.ilog2 x) ltac:(lia)). lra.
Qed.

Lemma ilog2_comp (x y : Q) : (0 < x)%Q -> (x == y)%Q -> Double.ilog2 x = Double.ilog2 y.
Proof.
  intros Hx Hxy. destruct (ilog2_spec x Hx) as [Xlo Xhi].
  symmetry. apply ilog2_unique; lra.
Qed.

(** [rne] rounds to the nearest integer. *)
Lemma rne_cases (x : Q) :
  (Double.rne x = Qfloor x /\ (x - inject_Z (Qfloor x) <= 1 # 2)%Q) \/
  (Double.rne x = Qfloor x + 1 /\ (1 # 2 <= x - inject_Z (Qfloor x))%Q).
Proof.
  unfold Double.rne.
  destruct (Qcompare_spec (x - inject_Z (Qfloor x)) (1 # 2)) as [Heq|Hlt|Hgt].
  - destruct (Z.even (Qfloor x)); [left|right]; split; try reflexivity; lra.
  - left. split; [reflexivity|lra].
  - right. split; [reflexivity|lra].
Qed.

Lemma rne_nearest (x : Q) :
  (inject_Z (Double.rne x) - (1 # 2) <= x)%Q /\ (x <= inject_Z (Double.rne x) + (1 # 2))%Q.
Proof.
  pose proof (Qfloor_le x) as Hlo. pose proof (Qlt_floor x) as Hhi.
  rewrite inject_Z_plus in Hhi. change (inject_Z 1) with 1%Q in Hhi.
  destruct (rne_cases x) as [[-> H]|[-> H]].
  - split; lra.
  - rewrite inject_Z_plus. change (inject_Z 1) with 1%Q. split; lra.
Qed.

Lemma rne_le_integer (x : Q) (n : Z) : (x <= inject_Z n)%Q -> Double.rne x <= n.
Proof.
  intros Hx. pose proof (Qfloor_le x) as Hlo.
  destruct (rne_cases x) as [[-> H]|[-> H]].
  - rewrite Zle_Qle. lra.
  - assert (inject_Z (Qfloor x) < inject_Z n)%Q as Hlt by lra.
    rewrite <- Zlt_Qlt in Hlt. lia.
Qed.

Lemma rne_ge_integer (x : Q) (n : Z) : (inject_Z n <= x)%Q -> n <= Double.rne x.
Proof.
  intros Hx. pose proof (Qlt_floor x) as Hhi.
  assert (inject_Z n < inject_Z (Qfloor x + 1))%Q as Hlt by lra.
  rewrite <- Zlt_Qlt in Hlt.
  destruct (rne_cases x) as [[-> H]|[-> H]]; lia.
Qed.

Lemma rne_integer (n : Z) : Double.rne (inject_Z n) = n.
Proof.
  apply Z.le_antisymm; [apply rne_le_integer|apply rne_ge_integer]; lra.
Qed.

Lemma rne_comp (x y : Q) : (x == y)%Q -> Double.rne x = Double.rne y.
Proof.
  intros Hxy. unfold Double.rne.
  rewrite (Qfloor_comp x y Hxy).
  rewrite (Qcompare_comp (x - inject_Z (Qfloor y))%Q (y - inject_Z (Qfloor y))%Q
             ltac:(rewrite Hxy; reflexivity) (1 # 2)%Q (1 # 2)%Q ltac:(reflexivity)).
  reflexivity.
Qed.

Lemma rne_monotone (x y : Q) : (x <= y)%Q -> Double.rne x <= Double.rne y.
Proof.
  intros Hxy.
  pose proof (Qfloor_resp_le x y Hxy) as Hfl.
  destruct (Z.eq_dec (Qfloor x) (Qfloor y)) as [Heq|Hne].
  - unfold Double.rne. rewrite Heq.
    destruct (Qcompare_spec (x - inject_Z (Qfloor y)) (1 # 2)) as [Hx|Hx|Hx];
      destruct (Qcompare_spec (y - inject_Z (Qfloor y)) (1 # 2)) as [Hy|Hy|Hy];
      try lia; try lra; destruct (Z.even (Qfloor y)); lia.
  - destruct (rne_cases x) as [[-> _]|[-> _]];
      destruct (rne_cases y) as [[-> _]|[-> _]]; lia.
Qed.

(** The scaled significand of a positive number is below [2 ^ 53], and at
    least [2 ^ 52] for a number in the normal range. *)
Lemma exponent_ge (x : Q) : Double.ilog2 x - 52 <= Double.exponent x.
Proof. unfold Double.exponent. lia. Qed.

Lemma significand_upper (x : Q) :
  (0 < x)%Q -> (x / Double.pow2 (Double.exponent x) < Double.pow2 53)%Q.
Proof.
  intros Hx. destruct (ilog2_spec x Hx) as [_ Hhi].
  pose proof (pow2_pos (Double.exponent x)) as He.
  apply Qlt_shift_div_r; [exact He|].
  apply Qlt_le_trans with (Double.pow2 (Double.ilog2 x + 1)); [exact Hhi|].
  rewrite <- pow2_plus. apply pow2_le. pose proof (exponent_ge x). lia.
Qed.

Lemma significand_lower (x : Q) :
  (0 < x)%Q -> Double.exponent x = Double.ilog2 x - 52 ->
  (Double.pow2 52 <= x / Double.pow2 (Double.exponent x))%Q.
Proof.
  intros Hx Hexp. destruct (ilog2_spec x Hx) as [Hlo _].
  pose proof (pow2_pos (Double.exponent x)) as He.
  apply Qle_shift_div_l; [exact He|].
  rewrite <- pow2_plus, Hexp.
  replace (52 + (Double.ilog2 x - 52)) with (Double.ilog2 x) by lia. exact Hlo.
Qed.

Lemma nearest_nonneg (x : Q) : (0 < x)%Q -> (0 <= Double.nearest x)%Q.
Proof.
  intros Hx. unfold Double.nearest.
  pose proof (pow2_pos (Double.exponent x)) as He.
  apply Qmult_le_0_compat; [|lra].
  change 0%Q with (inject_Z 0). rewrite <- Zle_Qle. apply rne_ge_integer.
  change (inject_Z 0) with 0%Q. apply Qle_shift_div_l; [exact He|]. lra.
Qed.

Lemma nearest_upper (x : Q) :
  (0 < x)%Q -> (Double.nearest x <= Double.pow2 (Double.exponent x + 53))%Q.
Proof.
  intros Hx. unfold Double.nearest.
  pose proof (pow2_pos (Double.exponent x)) as He.
  rewrite Z.add_comm, pow2_plus. apply Qmult_le_compat_r; [|lra].
  rewrite <- (pow2_inject 53) by lia. rewrite <- Zle_Qle. apply rne_le_integer.
  rewrite (pow2_inject 53) by lia. apply Qlt_le_weak, significand_upper, Hx.
Qed.

Lemma nearest_lower (x : Q) :
  (0 < x)%Q -> Double.exponent x = Double.ilog2 x - 52 ->
  (Double.pow2 (Double.exponent x + 52) <= Double.nearest x)%Q.
Proof.
  intros Hx Hexp. unfold Double.nearest.
  pose proof (pow2_pos (Double.exponent x)) as He.
  rewrite Z.add_comm, pow2_plus. apply Qmult_le_compat_r; [|lra].
  rewrite <- (pow2_inject 52) by lia. rewrite <- Zle_Qle. apply rne_ge_integer.
  rewrite (pow2_inject 52) by lia. apply significand_lower; assumption.
Qed.

(** Rounding is monotone. *)
Lemma nearest_monotone (x y : Q) :
  (0 < x)%Q -> (x <= y)%Q -> (Double.nearest x <= Double.nearest y)%Q.
Proof.
  intros Hx Hxy.
  assert (0 < y)%Q as Hy by lra.
  pose proof (ilog2_monotone x y Hx Hxy) as Hlog.
  destruct (Z.eq_dec (Double.exponent x) (Double.exponent y)) as [Heq|Hne].
  - unfold Double.nearest. rewrite Heq.
    pose proof (pow2_pos (Double.exponent y)) as He.
    apply Qmult_le_compat_r; [|lra].
    rewrite <- Zle_Qle. apply rne_monotone.
    unfold Qdiv. apply Qmult_le_compat_r; [exact Hxy|].
    apply Qlt_le_weak, Qinv_lt_0_compat, He.
  - assert (Double.exponent x < Double.exponent y) as Hlt
      by (unfold Double.exponent in *; lia).
    assert (Double.exponent y = Double.ilog2 y - 52) as Hnormal
      by (unfold Double.exponent in *; lia).
    apply Qle_trans with (Double.pow2 (Double.exponent x + 53));
      [apply nearest_upper, Hx|].
    apply Qle_trans with (Double.pow2 (Double.exponent y + 52));
      [apply pow2_le; lia|].
    apply nearest_lower; assumption.
Qed.

Lemma round_positive (x : Q) : (0 < x)%Q -> Double.round x = Double.nearest x.
Proof.
  intros Hx. unfold Double.round.
  destruct (Qcompare_spec x 0) as [H|H|H]; [lra|lra|reflexivity].
Qed.

Lemma round_negative (x : Q) : (x < 0)%Q -> Double.round x = (- Double.nearest (- x))%Q.
Proof.
  intros Hx. unfold Double.round.
  destruct (Qcompare_spec x 0) as [H|H|H]; [lra|reflexivity|lra].
Qed.

Lemma round_zero (x : Q) : (x == 0)%Q -> Double.round x = 0%Q.
Proof.
  intros Hx. unfold Double.round.
  destruct (Qcompare_spec x 0) as [H|H|H]; [reflexivity|lra|lra].
Qed.

(** From here on [round] is used through its lemmas, or evaluated on closed
    operands. *)
Opaque Double.round.

Lemma round_monotone (x y : Q) : (x <= y)%Q -> (Double.round x <= Double.round y)%Q.
Proof.
  intros Hxy.
  destruct (Qcompare_spec x 0) as [Hx|Hx|Hx];
    destruct (Qcompare_spec y 0) as [Hy|Hy|Hy]; try lra.
  - rewrite (round_zero x Hx), (round_zero y Hy). lra.
  - rewrite (round_zero x Hx), (round_positive y Hy). apply nearest_nonneg, Hy.
  - rewrite (round_negative x Hx), (round_zero y Hy).
    pose proof (nearest_nonneg (- x) ltac:(lra)). lra.
  - rewrite (round_negative x Hx), (round_negative y Hy).
    pose proof (nearest_monotone (- y) (- x) ltac:(lra) ltac:(lra)). lra.
  - rewrite (round_negative x Hx), (round_positive y Hy).
    pose proof (nearest_nonneg (- x) ltac:(lra)).
    pose proof (nearest_nonneg y Hy). lra.
  - rewrite (round_positive x Hx), (round_positive y Hy).
    apply nearest_monotone; assumption.
Qed.

Lemma round_nonneg (x : Q) : (0 <= x)%Q -> (0 <= Double.round x)%Q.
Proof. intros Hx. apply (round_monotone 0 x Hx). Qed.

Lemma round_nonpos (x : Q) : (x <= 0)%Q -> (Double.round x <= 0)%Q.
Proof. intros Hx. apply (round_monotone x 0 Hx). Qed.

(** The rounding error: half a unit in the last place, which is at most
    [x * 2 ^ -53] in the normal range and [2 ^ -1075] below it. *)
Lemma nearest_error (x : Q) :
  (0 < x)%Q ->
  (Double.nearest x - x <= x * Double.pow2 (-53) + Double.pow2 (-1075))%Q /\
  (x - Double.nearest x <= x * Double.pow2 (-53) + Double.pow2 (-1075))%Q.
Proof.
  intros Hx. unfold Double.nearest.
  set (e := Double.exponent x).
  pose proof (pow2_pos e) as He.
  destruct (rne_nearest (x / Double.pow2 e)) as [Hlo Hhi].
  assert (x / Double.pow2 e * Double.pow2 e == x)%Q as Hz by (field; lra).
  set (z := (x / Double.pow2 e)%Q) in *.
  set (n := inject_Z (Double.rne z)) in *.
  assert ((n - (1 # 2)) * Double.pow2 e <= z * Double.pow2 e)%Q as H1
    by (apply Qmult_le_compat_r; lra).
  assert (z * Double.pow2 e <= (n + (1 # 2)) * Double.pow2 e)%Q as H2
    by (apply Qmult_le_compat_r; lra).
  assert ((1 # 2) * Double.pow2 e <= x * Double.pow2 (-53) + Double.pow2 (-1075))%Q
    as Hulp.
  { pose proof (pow2_pos (-53)). pose proof (pow2_pos (-1075)).
    assert (0 <= x * Double.pow2 (-53))%Q by (apply Qmult_le_0_compat; lra).
    destruct (Z.max_spec (Double.ilog2 x - 52) (-1074)) as [[_ Hmax]|[_ Hmax]];
      fold (Double.exponent x) in Hmax; fold e in Hmax; rewrite Hmax.
    - assert (Double.pow2 (-1074) == 2 * Double.pow2 (-1075))%Q as ->
        by (rewrite <- pow2_succ; reflexivity).
      lra.
    - destruct (ilog2_spec x Hx) as [Hlog _].
      assert ((1 # 2) * Double.pow2 (Double.ilog2 x - 52)
              == Double.pow2 (Double.ilog2 x) * Double.pow2 (-53))%Q as Heq.
      { rewrite <- pow2_plus.
        replace (Double.ilog2 x + -53) with (-1 + (Double.ilog2 x - 52)) by lia.
        rewrite pow2_plus. reflexivity. }
      assert (Double.pow2 (Double.ilog2 x) * Double.pow2 (-53)
              <= x * Double.pow2 (-53))%Q
        by (apply Qmult_le_compat_r; lra).
      lra. }
  split; lra.
Qed.

Lemma round_error (x : Q) :
  (0 <= x)%Q ->
  (Double.round x - x <= x * Double.pow2 (-53) + Double.pow2 (-1075))%Q /\
  (x - Double.round x <= x * Double.pow2 (-53) + Double.pow2 (-1075))%Q.
Proof.
  intros Hx. pose proof (pow2_pos (-1075)).
  destruct (Qcompare_spec x 0) as [H0|H0|H0]; [|lra|].
  - rewrite (round_zero x H0). rewrite H0. split; lra.
  - rewrite (round_positive x H0). apply nearest_error, H0.
Qed.

Lemma round_opp (x : Q) : (Double.round (- x) == - Double.round x)%Q.
Proof.
  destruct (Qcompare_spec x 0) as [H|H|H].
  - rewrite (round_zero x H), (round_zero (- x)) by lra. reflexivity.
  - rewrite (round_negative x H), (round_positive (- x)) by lra. ring.
  - rewrite (round_positive x H), (round_negative (- x)) by lra.
    assert (Double.nearest (- - x) == Double.nearest x)%Q as ->; [|reflexivity].
    rewrite <- (round_positive (- - x)), <- (round_positive x) by lra.
    apply Qle_antisym; apply round_monotone; lra.
Qed.

(** The error is below one part in [4 * 10 ^ 15] of a bound on the
    magnitude. *)
Lemma round_error_bound (x bound : Q) :
  (- bound <= x)%Q -> (x <= bound)%Q -> (1 <= bound)%Q ->
  (Double.round x - x <= bound * (1 # 4000000000000000))%Q /\
  (x - Double.round x <= bound * (1 # 4000000000000000))%Q.
Proof.
  assert (forall y : Q, (0 <= y)%Q -> (y <= bound)%Q -> (1 <= bound)%Q ->
            (Double.round y - y <= bound * (1 # 4000000000000000))%Q /\
            (y - Double.round y <= bound * (1 # 4000000000000000))%Q) as Hpos.
  { intros y Hy Hb H1. destruct (round_error y Hy) as [Hlo Hhi].
    assert (Double.pow2 (-53) <= 1 # 8000000000000000)%Q as Hu
      by (vm_compute; discriminate).
    assert (Double.pow2 (-1075) <= 1 # 8000000000000000)%Q as Heta
      by (vm_compute; discriminate).
    pose proof (pow2_pos (-53)). pose proof (pow2_pos (-1075)).
    assert (y * Double.pow2 (-53) <= bound * (1 # 8000000000000000))%Q.
    { apply Qle_trans with (bound * Double.pow2 (-53))%Q.
      - apply Qmult_le_compat_r; lra.
      - apply Qmult_le_l; lra. }
    split; lra. }
  intros Hlo Hhi H1. destruct (Qlt_le_dec x 0) as [Hneg|Hnonneg].
  - destruct (Hpos (- x)%Q ltac:(lra) ltac:(lra) H1) as [H2 H3].
    rewrite round_opp in H2, H3. split; lra.
  - apply Hpos; assumption.
Qed.

(** An integer below [2 ^ 53] is a double. *)
Lemma round_integer (n : Z) :
  0 <= n < 2 ^ 53 -> (Double.round (inject_Z n) == inject_Z n)%Q.
Proof.
  intros [Hlo Hhi]. destruct (Z.eq_dec n 0) as [->|Hne]; [reflexivity|].
  assert (0 < inject_Z n)%Q as Hpos
    by (change 0%Q with (inject_Z 0); rewrite <- Zlt_Qlt; lia).
  rewrite (round_positive _ Hpos). unfold Double.nearest.
  destruct (ilog2_spec _ Hpos) as [Hlog _].
  assert (Double.ilog2 (inject_Z n) < 53) as Hlt.
  { apply Z.lt_nge. intros Hge.
    pose proof (pow2_le 53 (Double.ilog2 (inject_Z n)) Hge) as Hle.
    rewrite <- (pow2_inject 53) in Hle by lia.
    assert (inject_Z (2 ^ 53) <= inject_Z n)%Q as Hq by lra.
    rewrite <- Zle_Qle in Hq. lia. }
  set (e := Double.exponent (inject_Z n)).
  assert (-1074 <= e <= 0) as He by (unfold e, Double.exponent; lia).
  pose proof (pow2_pos e) as Hpe. pose proof (pow2_pos (- e)) as Hpn.
  assert (Double.pow2 e * Double.pow2 (- e) == 1)%Q as Hinv
    by (rewrite <- pow2_plus; replace (e + - e) with 0 by lia; reflexivity).
  assert (inject_Z n / Double.pow2 e == inject_Z (n * 2 ^ (- e)))%Q as Hscaled.
  { rewrite inject_Z_mult, (pow2_inject (- e)) by lia.
    unfold Qdiv, Double.pow2. rewrite Qpower_opp. reflexivity. }
  rewrite (rne_comp _ _ Hscaled), rne_integer.
  rewrite inject_Z_mult, (pow2_inject (- e)) by lia.
  rewrite <- Qmult_assoc, (Qmult_comm (Double.pow2 (- e))), Hinv. ring.
Qed.

(** Numbers that a double holds are left alone: the constants of the
    component. *)
Lemma round_1 : (Double.round 1 == 1)%Q.
Proof. vm_compute. reflexivity. Qed.

Lemma round_100 : (Double.round 100 == 100)%Q.
Proof. vm_compute. reflexivity. Qed.

Lemma round_comp (x y : Q) : (x == y)%Q -> (Double.round x == Double.round y)%Q.
Proof.
  intros Hxy. apply Qle_antisym; apply round_monotone; lra.
Qed.

(** The arithmetic on some operands: [1 / 3]; [0.015 * 100], which is
    [1.5]; and [(1 - 935 / 1000) * 100], which is [6.499999999999995]. *)
Lemma round_values :
  (Double.div 1 3 == 6004799503160661 # 18014398509481984)%Q /\
  (Double.mul (1080863910568919 # 72057594037927936) 100 == 3 # 2)%Q /\
  (Double.div 935 1000 == 2105432825795707 # 2251799813685248)%Q /\
  (Double.sub 1 (Double.div 935 1000) == 146366987889541 # 2251799813685248)%Q /\
  (Double.mul (Double.sub 1 (Double.div 935 1000)) 100
   == 3659174697238525 # 562949953421312)%Q.
Proof. repeat split; vm_compute; reflexivity. Qed.

(** ** The arithmetic of the component *)

Lemma inject_Z_pos (n : Z) : 0 < n -> (0 < inject_Z n)%Q.
Proof. intros Hn. change 0%Q with (inject_Z 0). rewrite <- Zlt_Qlt. exact Hn. Qed.

Lemma inject_Z_nonneg (n : Z) : 0 <= n -> (0 <= inject_Z n)%Q.
Proof. intros Hn. change 0%Q with (inject_Z 0). rewrite <- Zle_Qle. exact Hn. Qed.

Lemma Qdiv_monotone (a a' b : Q) : (0 < b)%Q -> (a <= a')%Q -> (a / b <= a' / b)%Q.
Proof.
  intros Hb Ha. unfold Qdiv. apply Qmult_le_compat_r; [exact Ha|].
  apply Qlt_le_weak, Qinv_lt_0_compat, Hb.
Qed.

Lemma Qdiv_nonneg (a b : Q) : (0 < b)%Q -> (0 <= a)%Q -> (0 <= a / b)%Q.
Proof. intros Hb Ha. apply Qle_shift_div_l; [exact Hb|lra]. Qed.

(** The percentage [(1 - a / b) * 100], as the component computes it, does
    not grow with [a]. *)
Lemma percent_antitone (a a' b : Z) :
  0 < b -> a <= a' ->
  (Double.mul (Double.sub 1 (Double.div (inject_Z a') (inject_Z b))) 100
   <= Double.mul (Double.sub 1 (Double.div (inject_Z a) (inject_Z b))) 100)%Q.
Proof.
  intros Hb Ha. unfold Double.mul, Double.sub, Double.div.
  assert (Double.round (inject_Z a / inject_Z b)
          <= Double.round (inject_Z a' / inject_Z b))%Q as Hq.
  { apply round_monotone, Qdiv_monotone; [apply inject_Z_pos, Hb|].
    rewrite <- Zle_Qle. exact Ha. }
  assert (Double.round (1 - Double.round (inject_Z a' / inject_Z b))
          <= Double.round (1 - Double.round (inject_Z a / inject_Z b)))%Q as Hs
    by (apply round_monotone; lra).
  apply round_monotone. lra.
Qed.

(** It is 100 when [a] is 0 and 0 when [a] is [b]. *)
Lemma percent_of_nothing (b : Z) :
  0 < b ->
  (Double.mul (Double.sub 1 (Double.div (inject_Z 0) (inject_Z b))) 100 == 100)%Q.
Proof.
  intros Hb. unfold Double.mul, Double.sub, Double.div.
  assert (Double.round (inject_Z 0 / inject_Z b) == 0)%Q as Hq.
  { rewrite (round_zero (inject_Z 0 / inject_Z b)); [reflexivity|].
    change (inject_Z 0) with 0%Q. unfold Qdiv. ring. }
  assert (Double.round (1 - Double.round (inject_Z 0 / inject_Z b)) == 1)%Q as Hs.
  { apply Qeq_trans with (Double.round 1); [|apply round_1].
    apply round_comp. rewrite Hq. ring. }
  apply Qeq_trans with (Double.round 100); [|apply round_100].
  apply round_comp. rewrite Hs. ring.
Qed.

Lemma percent_of_all (b : Z) :
  0 < b ->
  (Double.mul (Double.sub 1 (Double.div (inject_Z b) (inject_Z b))) 100 == 0)%Q.
Proof.
  intros Hb. unfold Double.mul, Double.sub, Double.div.
  pose proof (inject_Z_pos b Hb) as Hq.
  assert (Double.round (inject_Z b / inject_Z b) == 1)%Q as Hone.
  { apply Qeq_trans with (Double.round 1); [|apply round_1].
    apply round_comp. field. lra. }
  assert (Double.round (1 - Double.round (inject_Z b / inject_Z b)) == 0)%Q as Hs
    by (rewrite round_zero; [reflexivity|rewrite Hone; ring]).
  rewrite round_zero; [reflexivity|]. rewrite Hs. ring.
Qed.

Lemma percent_at_most_100 (a b : Z) :
  0 < b -> 0 <= a ->
  Js.Math_round
    (Double.mul (Double.sub 1 (Double.div (inject_Z a) (inject_Z b))) 100) <= 100.
Proof.
  intros Hb Ha.
  apply Z.le_trans with (Js.Math_round 100); [|reflexivity].
  apply Math_round_monotone.
  apply Qle_trans
    with (Double.mul (Double.sub 1 (Double.div (inject_Z 0) (inject_Z b))) 100).
  - apply percent_antitone; assumption.
  - pose proof (percent_of_nothing b Hb). lra.
Qed.

(** It is negative only when [a] exceeds [b], and it is negative when [a]
    exceeds [b] by one percent. *)
Lemma percent_nonneg (a b : Z) :
  0 < b -> a <= b ->
  0 <= Js.Math_round
         (Double.mul (Double.sub 1 (Double.div (inject_Z a) (inject_Z b))) 100).
Proof.
  intros Hb Ha.
  apply Z.le_trans with (Js.Math_round 0); [reflexivity|].
  apply Math_round_monotone.
  apply Qle_trans
    with (Double.mul (Double.sub 1 (Double.div (inject_Z b) (inject_Z b))) 100).
  - pose proof (percent_of_all b Hb). lra.
  - apply percent_antitone; assumption.
Qed.

Lemma percent_negative (a b : Z) :
  0 < b -> 101 * b <= 100 * a ->
  Js.Math_round
    (Double.mul (Double.sub 1 (Double.div (inject_Z a) (inject_Z b))) 100) < 0.
Proof.
  intros Hb Ha. unfold Double.mul, Double.sub, Double.div.
  pose proof (inject_Z_pos b Hb) as Hq.
  assert (101 # 100 <= inject_Z a / inject_Z b)%Q as Hquot.
  { apply Qle_shift_div_l; [exact Hq|].
    assert (inject_Z (101 * b) <= inject_Z (100 * a))%Q as H
      by (rewrite <- Zle_Qle; exact Ha).
    rewrite !inject_Z_mult in H.
    change (inject_Z 101) with 101%Q in H. change (inject_Z 100) with 100%Q in H.
    lra. }
  pose proof (round_monotone _ _ Hquot) as H1.
  set (q := Double.round (inject_Z a / inject_Z b)) in *.
  set (q0 := Double.round (101 # 100)) in *.
  assert (Double.round (1 - q) <= Double.round (1 - q0))%Q as H2
    by (apply round_monotone; lra).
  set (s := Double.round (1 - q)) in *.
  set (s0 := Double.round (1 - q0)) in *.
  assert (Double.round (s * 100) <= Double.round (s0 * 100))%Q as H3
    by (apply round_monotone; lra).
  apply Z.le_lt_trans with (Js.Math_round (Double.round (s0 * 100))).
  - apply Math_round_monotone, H3.
  - vm_compute. reflexivity.
Qed.

(** Within the range of the sizes of files it is the exact percentage up to
    [10 ^ -9]. *)
Lemma percent_close (a b : Z) :
  0 < b -> 0 <= a -> a <= 1000 * b ->
  let exact := ((1 - inject_Z a / inject_Z b) * 100)%Q in
  let computed :=
    Double.mul (Double.sub 1 (Double.div (inject_Z a) (inject_Z b))) 100 in
  (computed - exact <= 1 # 1000000000)%Q /\ (exact - computed <= 1 # 1000000000)%Q.
Proof.
  intros Hb Ha Hmax exact computed. unfold exact, computed.
  unfold Double.mul, Double.sub, Double.div.
  pose proof (inject_Z_pos b Hb) as Hq.
  assert (0 <= inject_Z a / inject_Z b)%Q as Hlo
    by (apply Qdiv_nonneg; [exact Hq|apply inject_Z_nonneg, Ha]).
  assert (inject_Z a / inject_Z b <= 1000)%Q as Hhi.
  { apply Qle_shift_div_r; [exact Hq|].
    assert (inject_Z a <= inject_Z (1000 * b))%Q as H by (rewrite <- Zle_Qle; exact Hmax).
    rewrite inject_Z_mult in H. change (inject_Z 1000) with 1000%Q in H. lra. }
  set (r := (inject_Z a / inject_Z b)%Q) in *.
  destruct (round_error_bound r 1000 ltac:(lra) Hhi ltac:(lra)) as [Q1 Q2].
  set (q := Double.round r) in *.
  destruct (round_error_bound (1 - q) 2000 ltac:(lra) ltac:(lra) ltac:(lra))
    as [S1 S2].
  set (s := Double.round (1 - q)) in *.
  destruct (round_error_bound (s * 100) 400000 ltac:(lra) ltac:(lra) ltac:(lra))
    as [Y1 Y2].
  set (y := Double.round (s * 100)) in *.
  split; lra.
Qed.

(** The bitrate quotient [size * 8 / duration / 1000], as the component
    computes it, is the exact quotient up to [10 ^ -6]. *)
Lemma bitrate_close (size : Z) (duration : Q) :
  0 <= size -> (0 < duration)%Q ->
  (inject_Z size * 8 / duration / 1000 <= 1000000000)%Q ->
  let exact := (inject_Z size * 8 / duration / 1000)%Q in
  let computed := Double.div (Double.div (inject_Z (size * 8)) duration) 1000 in
  (computed - exact <= 1 # 1000000)%Q /\ (exact - computed <= 1 # 1000000)%Q.
Proof.
  intros Hsize Hd Hmax exact computed. unfold exact, computed, Double.div.
  assert (inject_Z (size * 8) == inject_Z size * 8)%Q as Hbits
    by (rewrite inject_Z_mult; reflexivity).
  pose proof (inject_Z_nonneg size Hsize) as Hs.
  assert (0 <= inject_Z (size * 8) / duration)%Q as Hlo
    by (apply Qdiv_nonneg; [exact Hd|lra]).
  assert (inject_Z size * 8 / duration / 1000
          == inject_Z (size * 8) / duration / 1000)%Q as Hexact
    by (rewrite Hbits; reflexivity).
  rewrite Hexact in *. clear Hexact.
  set (x := (inject_Z (size * 8) / duration)%Q) in *.
  assert (x / 1000 == x * (1 # 1000))%Q as Hx by reflexivity.
  destruct (round_error_bound x 1000000000000 ltac:(lra) ltac:(lra) ltac:(lra))
    as [X1 X2].
  set (y := Double.round x) in *.
  assert (y / 1000 == y * (1 # 1000))%Q as Hy by reflexivity.
  destruct (round_error_bound (y / 1000) 2000000000 ltac:(lra) ltac:(lra) ltac:(lra))
    as [Y1 Y2].
  split; lra.
Qed.

(** The product [bitrate * 125 * duration], as the component computes it,
    grows with the bitrate and is not negative. *)
Lemma estimate_monotone (bitrate bitrate' : Z) (duration : Q) :
  (0 <= duration)%Q -> bitrate <= bitrate' ->
  (Double.mul (Double.mul (inject_Z bitrate) 125) duration
   <= Double.mul (Double.mul (inject_Z bitrate') 125) duration)%Q.
Proof.
  intros Hd Hb. unfold Double.mul. apply round_monotone.
  apply Qmult_le_compat_r; [|exact Hd]. apply round_monotone.
  assert (inject_Z bitrate <= inject_Z bitrate')%Q by (rewrite <- Zle_Qle; exact Hb).
  lra.
Qed.

Lemma estimate_nonneg (bitrate : Z) (duration : Q) :
  (0 <= duration)%Q -> 0 <= bitrate ->
  (0 <= Double.mul (Double.mul (inject_Z bitrate) 125) duration)%Q.
Proof.
  intros Hd Hb. unfold Double.mul. apply round_nonneg.
  apply Qmult_le_0_compat; [|exact Hd]. apply round_nonneg.
  pose proof (inject_Z_nonneg bitrate Hb). lra.
Qed.

(** The product [bitrate * 125 * duration], as the component computes it,
    is the exact product up to [10 ^ -3]. *)
Lemma estimate_close (bitrate : Z) (duration : Q) :
  0 <= bitrate <= 1000000 -> (0 <= duration)%Q ->
  (inject_Z bitrate * 125 * duration <= 1000000000000)%Q ->
  let exact := (inject_Z bitrate * 125 * duration)%Q in
  let computed := Double.mul (Double.mul (inject_Z bitrate) 125) duration in
  (computed - exact <= 1 # 1000)%Q /\ (exact - computed <= 1 # 1000)%Q.
Proof.
  intros [Hb Hbmax] Hd Hmax exact computed. unfold exact, computed, Double.mul.
  assert (Double.round (inject_Z bitrate * 125) == inject_Z bitrate * 125)%Q as Hexact.
  { assert (inject_Z bitrate * 125 == inject_Z (bitrate * 125))%Q as Heq
      by (rewrite inject_Z_mult; reflexivity).
    rewrite (round_comp _ _ Heq), Heq. apply round_integer. lia. }
  assert (Double.round (Double.round (inject_Z bitrate * 125) * duration)
          == Double.round (inject_Z bitrate * 125 * duration))%Q as ->
    by (apply round_comp; rewrite Hexact; reflexivity).
  pose proof (inject_Z_nonneg bitrate Hb) as Hq.
  assert (0 <= inject_Z bitrate * 125 * duration)%Q as Hlo
    by (apply Qmult_le_0_compat; lra).
  destruct (round_error_bound (inject_Z bitrate * 125 * duration) 1000000000000
              ltac:(lra) Hmax ltac:(lra)) as [E1 E2].
  split; lra.
Qed.

(** ** Metadata extraction *)

(** C7, against the claim: the track of 570667 bytes, for which the browser
    reports 23.839874673629243 seconds, is reported with 192 kbps, while
    [570667 * 8 / duration / 1000] is below 191.5 and rounds to 191. The
    first division returns 191500, the double nearest to its exact
    quotient. *)
Lemma C7_bitrate_differs_from_exact_rounding :
  File.size Fixture.track = 570667 /\
  Media.loadMetadata Fixture.player Fixture.track = Some Fixture.trackDuration /\
  (parseAudioInfo Sample.t Fixture.player Fixture.track (Media.mkResources 0 0)).1 =
    Resolved (FileInfo.mk "track.mp3" 570667 Fixture.trackDuration 192 44100 2) /\
  (Double.div (inject_Z (570667 * 8)) Fixture.trackDuration == 191500)%Q /\
  Js.Math_round (inject_Z 570667 * 8 / Fixture.trackDuration / 1000) = 191.
Proof.
  split; [vm_compute; reflexivity|]. split; [reflexivity|].
  split; [vm_compute; reflexivity|]. split; vm_compute; reflexivity.
Qed.

(** C7, amended. When the metadata of a file loads with a positive duration
    and the file can be read, [parseAudioInfo] fulfils, whether or not the
    samples decode, and the bitrate it reports is the rounding of
    [size * 8 / duration / 1000] as the doubles compute it, each division
    rounded to the nearest double. For a quotient of at most [10 ^ 9] the
    computed quotient is the exact one up to [10 ^ -6], so the bitrate is
    within half a unit and [10 ^ -6] of the exact quotient, and is its
    rounding or an integer next to it. *)
Theorem C7_original_bitrate_in_double_precision
    (t : string -> string) (host : Media.Host) (audioFile : File.t)
    (res : Media.Resources) (duration : Q) :
  Media.loadMetadata host audioFile = Some duration ->
  (0 < duration)%Q ->
  (inject_Z (File.size audioFile) * 8 / duration / 1000 <= 1000000000)%Q ->
  is_Some (Media.readAsArrayBuffer host audioFile) ->
  exists info : FileInfo.t,
    (parseAudioInfo t host audioFile res).1 = Resolved info /\
    FileInfo.size info = File.size audioFile /\
    FileInfo.bitrate info =
      Js.Math_round
        (Double.div (Double.div (inject_Z (File.size audioFile * 8)) duration) 1000) /\
    (inject_Z (FileInfo.bitrate info) - (1 # 2) - (1 # 1000000)
       <= inject_Z (File.size audioFile) * 8 / duration / 1000)%Q /\
    (inject_Z (File.size audioFile) * 8 / duration / 1000
       < inject_Z (FileInfo.bitrate info) + (1 # 2) + (1 # 1000000))%Q /\
    Js.Math_round (inject_Z (File.size audioFile) * 8 / duration / 1000) - 1
      <= FileInfo.bitrate info
      <= Js.Math_round (inject_Z (File.size audioFile) * 8 / duration / 1000) + 1.
Proof.
  intros Hload Hd Hmax [arrayBuffer Hread].
  assert (0 <= File.size audioFile) as Hsize by (unfold File.size; lia).
  destruct (bitrate_close (File.size audioFile) duration Hsize Hd Hmax) as [Hlo Hhi].
  set (exact := (inject_Z (File.size audioFile) * 8 / duration / 1000)%Q) in *.
  set (computed :=
         Double.div (Double.div (inject_Z (File.size audioFile * 8)) duration) 1000)
    in *.
  destruct (Math_round_nearest computed) as [Nlo Nhi].
  pose proof (Math_round_close exact computed ltac:(lra) ltac:(lra)) as Hclose.
  unfold parseAudioInfo. rewrite Hload, Hread.
  destruct (Media.decodeAudioData host arrayBuffer) as [[sampleRate numberOfChannels]|];
    eexists; (split; [reflexivity|]); cbn [FileInfo.size FileInfo.bitrate];
    fold computed; (split; [reflexivity|]); (split; [reflexivity|]);
    (split; [lra|]); (split; [lra|]); exact Hclose.
Qed.

Lemma C7_original_bitrate_witness :
  exists info : FileInfo.t,
    (parseAudioInfo Sample.t Sample.decodable Sample.song (Media.mkResources 0 0)).1
      = Resolved info /\
    FileInfo.size info = 16 /\
    FileInfo.bitrate info = 131.
Proof.
  destruct (C7_original_bitrate_in_double_precision Sample.t Sample.decodable
              Sample.song (Media.mkResources 0 0) (1 # 1024))
    as (info & Hinfo & Hsize & Hbitrate & _).
  - reflexivity.
  - reflexivity.
  - vm_compute. discriminate.
  - eexists. reflexivity.
  - exists info. split; [exact Hinfo|]. split; [exact Hsize|].
    rewrite Hbitrate. vm_compute. reflexivity.
Defined.

(** C3. When the metadata of a file loads with a positive duration and the
    file is read but
    [decodeAudioData] rejects, [parseAudioInfo] still fulfils: the sample
    rate is 44100 and the channel count 2, and the name, size, duration and
    bitrate are those of the coarse phase. *)
Theorem C3_fine_decode_failure_falls_back
    (t : string -> string) (host : Media.Host) (audioFile : File.t)
    (res : Media.Resources) (duration : Q) (arrayBuffer : bytes) :
  Media.loadMetadata host audioFile = Some duration ->
  (0 < duration)%Q ->
  Media.readAsArrayBuffer host audioFile = Some arrayBuffer ->
  Media.decodeAudioData host arrayBuffer = None ->
  (parseAudioInfo t host audioFile res).1 =
    Resolved
      (FileInfo.mk (File.name audioFile) (File.size audioFile) duration
         (Js.Math_round
            (Double.div (Double.div (inject_Z (File.size audioFile * 8)) duration) 1000))
         44100 2).
Proof.
  intros Hload _ Hread Hdecode. unfold parseAudioInfo.
  rewrite Hload, Hread, Hdecode. reflexivity.
Qed.

Lemma C3_fine_decode_failure_witness :
  (parseAudioInfo Sample.t Sample.undecodable Sample.song (Media.mkResources 0 0)).1 =
    Resolved (FileInfo.mk "song.mp3" 16 (1 # 1024) 131 44100 2).
Proof.
  exact (C3_fine_decode_failure_falls_back Sample.t Sample.undecodable Sample.song
           (Media.mkResources 0 0) (1 # 1024) (File.content Sample.song)
           eq_refl eq_refl eq_refl eq_refl).
Defined.

(** The duration and the bitrate do not depend on the outcome of the fine
    phase: two browsers that agree on the coarse phase report the same. *)
Lemma coarse_values_independent_of_decode
    (t : string -> string) (host host' : Media.Host) (audioFile : File.t)
    (res res' : Media.Resources) (info info' : FileInfo.t) :
  Media.loadMetadata host audioFile = Media.loadMetadata host' audioFile ->
  (parseAudioInfo t host audioFile res).1 = Resolved info ->
  (parseAudioInfo t host' audioFile res').1 = Resolved info' ->
  FileInfo.duration info = FileInfo.duration info' /\
  FileInfo.bitrate info = FileInfo.bitrate info'.
Proof.
  unfold parseAudioInfo. intros <-.
  destruct (Media.loadMetadata host audioFile) as [duration|]; [|discriminate].
  destruct (Media.readAsArrayBuffer host audioFile) as [b|]; [|discriminate].
  destruct (Media.readAsArrayBuffer host' audioFile) as [b'|]; [|discriminate].
  destruct (Media.decodeAudioData host b) as [[? ?]|];
    destruct (Media.decodeAudioData host' b') as [[? ?]|];
    cbn; intros [= <-] [= <-]; split; reflexivity.
Qed.

(** The object URL is revoked on every path. *)
Lemma parseAudioInfo_revokes_url
    (t : string -> string) (host : Media.Host) (audioFile : File.t)
    (res : Media.Resources) :
  Media.objectURLs (parseAudioInfo t host audioFile res).2 = Media.objectURLs res.
Proof.
  unfold parseAudioInfo.
  destruct (Media.loadMetadata host audioFile) as [duration|]; [|reflexivity].
  destruct (Media.readAsArrayBuffer host audioFile) as [b|]; [|reflexivity].
  destruct (Media.decodeAudioData host b) as [[? ?]|]; reflexivity.
Qed.

(** The audio context is closed when the samples decode, and none is
    opened when the metadata does not load. *)
Lemma parseAudioInfo_closes_context_on_success
    (t : string -> string) (host : Media.Host) (audioFile : File.t)
    (res : Media.Resources) (duration : Q) (arrayBuffer : bytes) (decoded : Z * Z) :
  Media.loadMetadata host audioFile = Some duration ->
  Media.readAsArrayBuffer host audioFile = Some arrayBuffer ->
  Media.decodeAudioData host arrayBuffer = Some decoded ->
  Media.audioContexts (parseAudioInfo t host audioFile res).2 = Media.audioContexts res.
Proof.
  intros Hload Hread Hdecode. unfold parseAudioInfo.
  rewrite Hload, Hread, Hdecode. destruct decoded. reflexivity.
Qed.

Lemma parseAudioInfo_no_context_on_coarse_failure
    (t : string -> string) (host : Media.Host) (audioFile : File.t)
    (res : Media.Resources) :
  Media.loadMetadata host audioFile = None ->
  (parseAudioInfo t host audioFile res).2 = res.
Proof.
  intros Hload. unfold parseAudioInfo. rewrite Hload.
  destruct res. reflexivity.
Qed.

(** C9. The object URL is released on every path, but the audio context is
    not: when the metadata loads and [decodeAudioData] rejects, the promise
    fulfils with one more audio context open than before the call. *)
Theorem C9_audio_context_left_open_on_decode_failure
    (t : string -> string) (host : Media.Host) (audioFile : File.t)
    (res : Media.Resources) (duration : Q) (arrayBuffer : bytes) :
  Media.loadMetadata host audioFile = Some duration ->
  Media.readAsArrayBuffer host audioFile = Some arrayBuffer ->
  Media.decodeAudioData host arrayBuffer = None ->
  (exists info, (parseAudioInfo t host audioFile res).1 = Resolved info) /\
  Media.objectURLs (parseAudioInfo t host audioFile res).2 = Media.objectURLs res /\
  Media.audioContexts (parseAudioInfo t host audioFile res).2
    = S (Media.audioContexts res).
Proof.
  intros Hload Hread Hdecode. unfold parseAudioInfo.
  rewrite Hload, Hread, Hdecode. cbn. eauto.
Qed.

Lemma C9_audio_context_left_open_witness :
  (exists info,
      (parseAudioInfo Sample.t Sample.undecodable Sample.song (Media.mkResources 0 0)).1
        = Resolved info) /\
  Media.objectURLs
    (parseAudioInfo Sample.t Sample.undecodable Sample.song (Media.mkResources 0 0)).2
    = 0%nat /\
  Media.audioContexts
    (parseAudioInfo Sample.t Sample.undecodable Sample.song (Media.mkResources 0 0)).2
    = 1%nat.
Proof.
  exact (C9_audio_context_left_open_on_decode_failure Sample.t Sample.undecodable
           Sample.song (Media.mkResources 0 0) (1 # 1024) (File.content Sample.song)
           eq_refl eq_refl eq_refl).
Defined.

(** ** Parameter resolution *)

Lemma findPreset_catalog (p : Preset.t) :
  p ∈ presets -> findPreset (Preset.id p) = Some p.
Proof.
  unfold presets. intros Hp.
  enumerate Hp ltac:(subst p; reflexivity).
Qed.

(** C8. For a preset of the catalog other than the custom one, selected in
    any state (whatever the file, its metadata and the stored custom
    values), the resolved bitrate, sample rate and channel count are the
    fields of the preset. *)
Theorem C8_preset_fields_verbatim (p : Preset.t) (s : State) :
  p ∈ presets ->
  Preset.id p <> "custom" ->
  selectedPreset s = Preset.id p ->
  resolveState s =
    Some (mkParams (Preset.bitrate p) (Preset.sampleRate p) (Preset.channels p)).
Proof.
  intros Hp Hid Hsel. unfold resolveState, resolve, resolveField.
  rewrite Hsel, (findPreset_catalog p Hp).
  apply String.eqb_neq in Hid. rewrite Hid. reflexivity.
Qed.

Lemma C8_preset_fields_witness :
  resolveState (setCustomBitrate 48 (Sample.parsed 10485760 240)) =
    Some (mkParams 128 (Some 44100) (Some 2)).
Proof.
  refine (C8_preset_fields_verbatim
            (Preset.mk "medium" "presetMedium" "presetMediumDesc" 128 (Some 44100) (Some 2))
            (setCustomBitrate 48 (Sample.parsed 10485760 240)) _ _ eq_refl).
  - unfold presets. do 3 apply list_elem_of_further. apply list_elem_of_here.
  - discriminate.
Defined.

(** With the custom preset selected the parameters are the stored custom
    values, in every state. *)
Lemma resolve_custom (s : State) :
  selectedPreset s = "custom" ->
  resolveState s =
    Some (mkParams (customBitrate s) (Some (customSampleRate s)) (Some (customChannels s))).
Proof. intros Hsel. unfold resolveState, resolve, resolveField. rewrite Hsel. reflexivity. Qed.

(** The built list is the specified one as soon as no resolved value is 0. *)
Lemma buildArgs_argumentList (p : Resolved_params) :
  r_sampleRate p <> Some 0 ->
  r_channels p <> Some 0 ->
  buildArgs p = argumentList p.
Proof.
  destruct p as [bitrate [sampleRate|] [channels|]]; cbn [r_sampleRate r_channels];
    intros Hs Hc; unfold buildArgs, argumentList, Js.truthy;
    cbn [r_bitrate r_sampleRate r_channels default];
    repeat match goal with
      | |- context [?n =? 0] =>
          destruct (Z.eqb_spec n 0) as [->|_]; [congruence|]
      end; reflexivity.
Qed.

(** A legal selection resolves, and to values none of which is 0. *)
Lemma legalSelection_resolves (s : State) :
  legalSelection s ->
  exists params, resolveState s = Some params /\
    r_sampleRate params <> Some 0 /\ r_channels params <> Some 0.
Proof.
  intros (Hsel & _ & Hrate & Hchan).
  destruct (String.eqb_spec (selectedPreset s) "custom") as [Hc|Hc].
  - rewrite (resolve_custom s Hc). eexists. split; [reflexivity|].
    cbn [r_sampleRate r_channels]. split; intros [= H0]; rewrite H0 in *.
    + cbn in Hrate. absent Hrate.
    + cbn in Hchan. absent Hchan.
  - apply String.eqb_neq in Hc.
    unfold resolveState, resolve, resolveField. rewrite Hc.
    unfold presets in Hsel. cbn [map Preset.id] in Hsel.
    enumerate Hsel
      ltac:(rewrite Hsel; eexists; split; [reflexivity|]; split; discriminate).
Qed.

(** ** Invariants of the reachable states *)

Section Reachable.

Variable t : string -> string.
Variable fetchFile : File.t -> settled bytes.

(** What a resumption of [handleCompress] leaves alone. *)
Lemma resume_frame (r : Run) (s s' : State) (ws ws' : workspace) (next : option Run) :
  resume t fetchFile r s ws = (s', ws', next) ->
  selectedPreset s' = selectedPreset s /\
  customBitrate s' = customBitrate s /\
  customSampleRate s' = customSampleRate s /\
  customChannels s' = customChannels s /\
  processing s' = match next with Some _ => processing s | None => false end.
Proof.
  unfold resume.
  destruct (run_await r); repeat case_match; intros Heq; simplify_eq; cbn; auto.
Qed.

Lemma dispatch_legalSelection (e : Event) (w : World) :
  legalSelection (app w) -> legalSelection (app (dispatch t fetchFile e w)).
Proof.
  intros Hlegal. unfold dispatch.
  destruct (enabled e w) eqn:Hen; [|exact Hlegal].
  destruct Hlegal as (Hp & Hb & Hs & Hc).
  destruct e; cbn [handle app].
  - destruct r; repeat split; assumption.
  - unfold handleFileSelect. case_match; repeat split; assumption.
  - destruct r; repeat split; assumption.
  - cbn in Hen. apply bool_decide_eq_true in Hen.
    unfold onPresetClick. repeat case_match; repeat split; assumption.
  - cbn in Hen. apply andb_true_iff in Hen as [_ Hen].
    apply bool_decide_eq_true in Hen. repeat split; assumption.
  - cbn in Hen. apply andb_true_iff in Hen as [_ Hen].
    apply bool_decide_eq_true in Hen. repeat split; assumption.
  - cbn in Hen. apply andb_true_iff in Hen as [_ Hen].
    apply bool_decide_eq_true in Hen. repeat split; assumption.
  - unfold handleCompress. repeat case_match; repeat split; assumption.
  - unfold settle. destruct (runs w !! i) as [r|]; [|repeat split; assumption].
    destruct (resume t fetchFile r (app w) (fs w)) as [[s' ws'] next] eqn:Hres.
    apply resume_frame in Hres as (E1 & E2 & E3 & E4 & _).
    destruct next; cbn [app]; unfold legalSelection; rewrite E1, E2, E3, E4;
      repeat split; assumption.
  - unfold onProgress. case_match; repeat split; assumption.
  - repeat split; assumption.
Qed.

Lemma reachable_legalSelection (w : World) :
  reachable t fetchFile w -> legalSelection (app w).
Proof.
  induction 1 as [|e w _ IH].
  - unfold legalSelection, initialWorld, initialState, presets; cbn.
    repeat split.
    + do 3 apply list_elem_of_further. apply list_elem_of_here.
    + do 4 apply list_elem_of_further. apply list_elem_of_here.
    + apply list_elem_of_further. apply list_elem_of_here.
    + apply list_elem_of_here.
  - apply dispatch_legalSelection, IH.
Qed.

Lemma dispatch_serialised (e : Event) (w : World) :
  serialised w -> serialised (dispatch t fetchFile e w).
Proof.
  intros Hser. unfold dispatch.
  destruct (enabled e w) eqn:Hen; [|exact Hser].
  destruct e; cbn [handle]; try exact Hser.
  - unfold serialised in *; cbn [runs app]. destruct (runs w) as [|? [|? ?]]; auto.
    destruct r; exact Hser.
  - unfold serialised in *; cbn [runs app]. destruct (runs w) as [|? [|? ?]]; auto.
    unfold handleFileSelect. case_match; exact Hser.
  - unfold serialised in *; cbn [runs app]. destruct (runs w) as [|? [|? ?]]; auto.
    destruct r; exact Hser.
  - unfold serialised in *; cbn [runs app]. destruct (runs w) as [|? [|? ?]]; auto.
    unfold onPresetClick. repeat case_match; exact Hser.
  - cbn in Hen. rewrite !andb_true_iff, negb_true_iff, orb_false_iff in Hen.
    destruct Hen as (_ & Hproc & _).
    unfold serialised in Hser. destruct (runs w) as [|r0 [|r1 rs]] eqn:Hruns;
      [|congruence|contradiction].
    unfold handleCompress.
    destruct (ffmpeg (app w)) as [engine|], (file (app w)) as [input|],
      (loaded (app w)); unfold serialised; rewrite ?Hruns; try exact I.
    destruct (resolveState (app w)); cbn [runs app]; [reflexivity|exact I].
  - cbn in Hen. apply bool_decide_eq_true in Hen.
    unfold serialised in Hser. destruct (runs w) as [|r0 [|r1 rs]] eqn:Hruns;
      [cbn in Hen; lia| |contradiction].
    destruct i as [|i]; [|cbn in Hen; lia].
    unfold settle, serialised. rewrite Hruns. cbn [lookup list_lookup].
    destruct (resume t fetchFile r0 (app w) (fs w)) as [[s' ws'] next] eqn:Hres.
    apply resume_frame in Hres as (_ & _ & _ & _ & Hp).
    destruct next; cbn; [congruence|exact I].
  - unfold serialised in *; cbn [runs app]. destruct (runs w) as [|? [|? ?]]; auto.
    unfold onProgress. case_match; exact Hser.
Qed.

Lemma reachable_serialised (w : World) :
  reachable t fetchFile w -> serialised w.
Proof.
  induction 1 as [|e w _ IH]; [exact I|]. apply dispatch_serialised, IH.
Qed.

End Reachable.

Lemma reachable_customised :
  reachable Sample.t Sample.fetchFile Sample.customised.
Proof.
  unfold Sample.customised, Sample.ready.
  repeat apply reachable_dispatch. apply reachable_initial.
Qed.

Lemma reachable_running :
  reachable Sample.t Sample.fetchFile Sample.running.
Proof.
  unfold Sample.running, Sample.ready.
  repeat apply reachable_dispatch. apply reachable_initial.
Qed.

(** ** The engine argument list *)

(** C4. In every state the application reaches, the parameters resolve, the
    list [handleCompress] builds from them is: input reference, bitrate
    directive, sample-rate directive exactly when the sample rate is not
    pass-through, channel directive exactly when the channel count is not
    pass-through, map directive, force-overwrite, output reference; and a run
    started in that state carries this list to the engine. *)
Theorem C4_engine_argument_list
    (t : string -> string) (fetchFile : File.t -> settled bytes) (w : World) :
  reachable t fetchFile w ->
  exists params : Resolved_params,
    resolveState (app w) = Some params /\
    buildArgs params = argumentList params /\
    forall engine input,
      ffmpeg (app w) = Some engine -> file (app w) = Some input ->
      loaded (app w) = true ->
      runs (handleCompress t w) =
        runs w ++ [mkRun engine input (argumentList params) AwaitFetchFile].
Proof.
  intros Hreach.
  destruct (legalSelection_resolves (app w) (reachable_legalSelection _ _ _ Hreach))
    as (params & Hres & Hrate & Hchan).
  exists params. split; [exact Hres|].
  pose proof (buildArgs_argumentList params Hrate Hchan) as Hargs.
  split; [exact Hargs|].
  intros engine input Hengine Hfile Hloaded.
  unfold handleCompress. rewrite Hengine, Hfile, Hloaded, Hres, Hargs. reflexivity.
Qed.

Lemma C4_engine_argument_list_witness :
  exists params : Resolved_params,
    resolveState (app Sample.customised) = Some params /\
    buildArgs params =
      ["-i"; "input.mp3"; "-b:a"; "320k"; "-ar"; "16000"; "-ac"; "1";
       "-map"; "0:a"; "-y"; "output.mp3"].
Proof.
  destruct (C4_engine_argument_list Sample.t Sample.fetchFile Sample.customised
              reachable_customised) as (params & Hres & Hargs & _).
  exists params. split; [exact Hres|].
  vm_compute in Hres. injection Hres as <-. reflexivity.
Defined.

(** ** Custom values *)

(** C5. In every state the application reaches with the custom preset
    selected, the resolved parameters are the stored custom values, and each
    is in its set: the values are changed only through the three selects,
    and a change to a value that a select does not offer is rejected, it
    leaves the application as it is. *)
Theorem C5_custom_values_resolved_and_legal
    (t : string -> string) (fetchFile : File.t -> settled bytes) (w : World) :
  reachable t fetchFile w ->
  selectedPreset (app w) = "custom" ->
  resolveState (app w) =
    Some (mkParams (customBitrate (app w)) (Some (customSampleRate (app w)))
            (Some (customChannels (app w)))) /\
  customBitrate (app w) ∈ [32; 48; 64; 80; 96; 112; 128; 160; 192; 256; 320] /\
  customSampleRate (app w) ∈ [11025; 16000; 22050; 32000; 44100; 48000] /\
  customChannels (app w) ∈ [1; 2] /\
  (forall value, value ∉ bitrateOptions ->
     dispatch t fetchFile (BitrateChanged value) w = w) /\
  (forall value, value ∉ map fst sampleRateOptions ->
     dispatch t fetchFile (SampleRateChanged value) w = w) /\
  (forall value, value ∉ map fst channelOptions ->
     dispatch t fetchFile (ChannelsChanged value) w = w).
Proof.
  intros Hreach Hcustom.
  destruct (reachable_legalSelection _ _ _ Hreach) as (_ & Hb & Hs & Hc).
  split; [exact (resolve_custom (app w) Hcustom)|].
  split; [|split; [|split]].
  - unfold bitrateOptions in Hb. rewrite !elem_of_cons in *. tauto.
  - cbn in Hs. rewrite !elem_of_cons in *. tauto.
  - cbn in Hc. rewrite !elem_of_cons in *. tauto.
  - repeat split; intros value Hout; unfold dispatch; cbn [enabled];
      rewrite (bool_decide_eq_false_2 _ Hout), andb_false_r; reflexivity.
Qed.

Lemma C5_custom_values_witness :
  resolveState (app Sample.customised) = Some (mkParams 320 (Some 16000) (Some 1)).
Proof.
  exact (proj1 (C5_custom_values_resolved_and_legal Sample.t Sample.fetchFile
                  Sample.customised reachable_customised eq_refl)).
Defined.

(** ** Serialisation of runs *)

(** C2. In every state the application reaches at most one run is in
    flight; while one is, [processing] holds, the compress button is
    disabled, and a click on it is rejected: it starts nothing and leaves the
    application, the run in flight included, as it is. *)
Theorem C2_one_run_in_flight
    (t : string -> string) (fetchFile : File.t -> settled bytes) (w : World) :
  reachable t fetchFile w ->
  (length (runs w) <= 1)%nat /\
  (runs w <> [] ->
   processing (app w) = true /\
   enabled CompressClicked w = false /\
   dispatch t fetchFile CompressClicked w = w).
Proof.
  intros Hreach. pose proof (reachable_serialised _ _ _ Hreach) as Hser.
  unfold serialised in Hser.
  destruct (runs w) as [|r [|r' rs]] eqn:Hruns; [| |contradiction].
  - split; [cbn; lia|]. intros Hne. congruence.
  - split; [cbn; lia|]. intros _.
    assert (enabled CompressClicked w = false) as Hen.
    { cbn [enabled]. rewrite Hser. cbn [orb negb]. apply andb_false_r. }
    split; [exact Hser|]. split; [exact Hen|].
    unfold dispatch. rewrite Hen. reflexivity.
Qed.

Lemma C2_one_run_in_flight_witness :
  (length (runs Sample.running) <= 1)%nat /\
  (runs Sample.running <> [] ->
   processing (app Sample.running) = true /\
   enabled CompressClicked Sample.running = false /\
   dispatch Sample.t Sample.fetchFile CompressClicked Sample.running = Sample.running).
Proof.
  exact (C2_one_run_in_flight Sample.t Sample.fetchFile Sample.running
           reachable_running).
Defined.

(** ** Cleanup of the staged artifacts *)

Section Cleanup.

Variable t : string -> string.
Variable fetchFile : File.t -> settled bytes.

Lemma settle_sole_run (s : State) (ws : workspace) (r : Run) :
  settle t fetchFile 0 (mkWorld s ws [r]) =
    match resume t fetchFile r s ws with
    | (s', ws', Some r') => mkWorld s' ws' [r']
    | (s', ws', None) => mkWorld s' ws' []
    end.
Proof.
  unfold settle. cbn [runs app fs lookup list_lookup].
  destruct (resume t fetchFile r s ws) as [[s' ws'] [r'|]]; reflexivity.
Qed.

Lemma drive_sole_run (n : nat) (s : State) (ws : workspace) (r : Run) :
  drive t fetchFile (S n) (mkWorld s ws [r]) =
    drive t fetchFile n (settle t fetchFile 0 (mkWorld s ws [r])).
Proof. reflexivity. Qed.

Lemma last_buildArgs (p : Resolved_params) : last (buildArgs p) = Some "output.mp3".
Proof.
  unfold buildArgs. rewrite last_app. reflexivity.
Qed.

(** One resumption of a sole run, by the outcome of the awaited call. *)
Ltac resume_sole_run :=
  rewrite drive_sole_run, settle_sole_run; unfold resume;
  cbn [run_await run_file run_ffmpeg run_args suspendAt].

Lemma compress_exec_rejects (w : World) (engine : FFmpeg.t) (input : File.t)
    (params : Resolved_params) (data : bytes) (message : string) (ws : workspace) :
  runs w = [] ->
  ffmpeg (app w) = Some engine -> file (app w) = Some input -> loaded (app w) = true ->
  resolveState (app w) = Some params ->
  fetchFile input = Resolved data ->
  FFmpeg.writeFile engine "input.mp3" data (fs w)
    = (Resolved tt, <["input.mp3" := data]> (fs w)) ->
  FFmpeg.exec engine (buildArgs params) (<["input.mp3" := data]> (fs w))
    = (Rejected message, ws) ->
  compress t fetchFile w =
    mkWorld
      (failCompress t message
         (setError None (setProgressText (t "preparing")
            (setProgress 0 (setProcessing true (app w))))))
      ws [].
Proof.
  destruct w as [s ws0 rs]. cbn [runs app fs].
  intros -> Hengine Hfile Hloaded Hres Hfetch Hwrite Hexec.
  unfold compress, handleCompress. cbn [runs app fs].
  rewrite Hengine, Hfile, Hloaded, Hres, app_nil_l.
  resume_sole_run. rewrite Hfetch.
  resume_sole_run. rewrite Hwrite.
  resume_sole_run. rewrite Hexec.
  reflexivity.
Qed.

Lemma compress_read_rejects (w : World) (engine : FFmpeg.t) (input : File.t)
    (params : Resolved_params) (data : bytes) (code : Z) (message : string)
    (ws ws' : workspace) :
  runs w = [] ->
  ffmpeg (app w) = Some engine -> file (app w) = Some input -> loaded (app w) = true ->
  resolveState (app w) = Some params ->
  fetchFile input = Resolved data ->
  FFmpeg.writeFile engine "input.mp3" data (fs w)
    = (Resolved tt, <["input.mp3" := data]> (fs w)) ->
  FFmpeg.exec engine (buildArgs params) (<["input.mp3" := data]> (fs w))
    = (Resolved code, ws) ->
  FFmpeg.readFile engine "output.mp3" ws = (Rejected message, ws') ->
  compress t fetchFile w =
    mkWorld
      (failCompress t message
         (setError None (setProgressText (t "preparing")
            (setProgress 0 (setProcessing true (app w))))))
      ws' [].
Proof.
  destruct w as [s ws0 rs]. cbn [runs app fs].
  intros -> Hengine Hfile Hloaded Hres Hfetch Hwrite Hexec Hread.
  unfold compress, handleCompress. cbn [runs app fs].
  rewrite Hengine, Hfile, Hloaded, Hres, app_nil_l.
  resume_sole_run. rewrite Hfetch.
  resume_sole_run. rewrite Hwrite.
  resume_sole_run. rewrite Hexec.
  resume_sole_run. rewrite Hread.
  reflexivity.
Qed.

(** The success path: over the in-memory engine with an encoding codec,
    the run reads the output back and deletes both artifacts. *)
Lemma compress_success_cleans (w : World) (encode : bytes -> bytes)
    (input : File.t) (params : Resolved_params) (data : bytes) :
  runs w = [] ->
  ffmpeg (app w) = Some (FFmpeg.memfs (FFmpeg.encoding encode)) ->
  file (app w) = Some input -> loaded (app w) = true ->
  resolveState (app w) = Some params ->
  fetchFile input = Resolved data ->
  runs (compress t fetchFile w) = [] /\
  result (app (compress t fetchFile w))
    = Some (Result.mk (encode data) (Z.of_nat (length (encode data)))) /\
  processing (app (compress t fetchFile w)) = false /\
  fs (compress t fetchFile w) !! "input.mp3" = None /\
  fs (compress t fetchFile w) !! "output.mp3" = None.
Proof.
  destruct w as [s ws0 rs]. cbn [runs app fs].
  intros -> Hengine Hfile Hloaded Hres Hfetch.
  unfold compress, handleCompress. cbn [runs app fs].
  rewrite Hengine, Hfile, Hloaded, Hres, app_nil_l.
  resume_sole_run. rewrite Hfetch.
  resume_sole_run. cbn [FFmpeg.memfs FFmpeg.writeFile].
  resume_sole_run. cbn [FFmpeg.memfs FFmpeg.exec]. unfold FFmpeg.encoding.
  rewrite lookup_insert_eq, last_buildArgs.
  resume_sole_run. cbn [FFmpeg.memfs FFmpeg.readFile].
  rewrite lookup_insert_eq.
  resume_sole_run. cbn [FFmpeg.memfs FFmpeg.deleteFile].
  rewrite lookup_insert_ne by discriminate. rewrite lookup_insert_eq.
  resume_sole_run. cbn [FFmpeg.memfs FFmpeg.deleteFile].
  rewrite lookup_delete_ne by discriminate. rewrite lookup_insert_eq.
  cbn [drive runs app fs]. repeat split.
  - rewrite lookup_delete_ne by discriminate. apply lookup_delete_eq.
  - apply lookup_delete_eq.
Qed.

End Cleanup.

(** C1. The artifacts are removed at the end of the [try] block only. When
    the engine is loaded, a file is chosen, the input is staged and [exec]
    rejects, the run returns ([processing] is reset, the error is shown)
    without a call of [deleteFile]: the workspace is as [exec] left it, and
    [input.mp3] is still staged in it. *)
Theorem C1_input_left_staged_when_exec_rejects
    (t : string -> string) (fetchFile : File.t -> settled bytes)
    (w : World) (engine : FFmpeg.t) (input : File.t)
    (params : Resolved_params) (data : bytes) (message : string) (ws : workspace) :
  runs w = [] ->
  ffmpeg (app w) = Some engine -> file (app w) = Some input -> loaded (app w) = true ->
  resolveState (app w) = Some params ->
  fetchFile input = Resolved data ->
  FFmpeg.writeFile engine "input.mp3" data (fs w)
    = (Resolved tt, <["input.mp3" := data]> (fs w)) ->
  FFmpeg.exec engine (buildArgs params) (<["input.mp3" := data]> (fs w))
    = (Rejected message, ws) ->
  ws !! "input.mp3" = Some data ->
  runs (compress t fetchFile w) = [] /\
  processing (app (compress t fetchFile w)) = false /\
  error (app (compress t fetchFile w))
    = Some (t "compressionFailed" +:+ " " +:+ message) /\
  fs (compress t fetchFile w) = ws /\
  fs (compress t fetchFile w) !! "input.mp3" = Some data.
Proof.
  intros Hruns Hengine Hfile Hloaded Hres Hfetch Hwrite Hexec Hkept.
  rewrite (compress_exec_rejects t fetchFile w engine input params data message ws)
    by assumption.
  cbn [runs app fs]. repeat split. exact Hkept.
Qed.

Lemma C1_input_left_staged_witness :
  runs (compress Sample.t Sample.fetchFile (Sample.ready Sample.aborting)) = [] /\
  processing (app (compress Sample.t Sample.fetchFile (Sample.ready Sample.aborting)))
    = false /\
  error (app (compress Sample.t Sample.fetchFile (Sample.ready Sample.aborting)))
    = Some "compressionFailed Aborted()" /\
  fs (compress Sample.t Sample.fetchFile (Sample.ready Sample.aborting))
    = {[ "input.mp3" := File.content Sample.song ]} /\
  fs (compress Sample.t Sample.fetchFile (Sample.ready Sample.aborting)) !! "input.mp3"
    = Some (File.content Sample.song).
Proof.
  exact (C1_input_left_staged_when_exec_rejects Sample.t Sample.fetchFile
           (Sample.ready Sample.aborting) Sample.aborting Sample.song
           (mkParams 128 (Some 44100) (Some 2)) (File.content Sample.song)
           "Aborted()" {[ "input.mp3" := File.content Sample.song ]}
           eq_refl eq_refl eq_refl eq_refl eq_refl eq_refl eq_refl eq_refl eq_refl).
Defined.

(** ** Size estimate and saved percentage *)

Lemma resolveState_bitrate (s : State) (params : Resolved_params) :
  resolveState s = Some params ->
  resolveField (selectedPreset s) (customBitrate s) Preset.bitrate
    (findPreset (selectedPreset s)) = Some (r_bitrate params).
Proof.
  unfold resolveState, resolve. intros Hres.
  destruct (resolveField (selectedPreset s) (customBitrate s) Preset.bitrate
              (findPreset (selectedPreset s))) as [bitrate|]; [|discriminate].
  repeat case_match; try discriminate. injection Hres as <-. reflexivity.
Qed.

(** C6, against the claim: for a file of 10 MB lasting 240.00390625 seconds
    and the 128 kbps preset, the estimated size is 3840063, not
    128 * 125 * 240.00390625 = 3840062.5. *)
Lemma C6_estimated_size_is_rounded :
  option_map r_bitrate (resolveState (Sample.parsed 10485760 (61441 # 256))) = Some 128 /\
  option_map estimatedSize (estimateInfo (Sample.parsed 10485760 (61441 # 256)))
    = Some 3840063 /\
  ~ (inject_Z 3840063 == inject_Z 128 * 125 * (61441 # 256))%Q.
Proof.
  split; [reflexivity|]. split; [vm_compute; reflexivity|]. intros H. discriminate H.
Qed.

(** C6, amended. For a parsed file of positive size and the resolved
    bitrate, the estimate block shows the rounding of
    [bitrate * 125 * duration] as the estimated size and the rounding of
    [(1 - estimatedSize / size) * 100] as the ratio, and the result
    statistics show the rounding of [(1 - outputSize / size) * 100], each
    product, quotient and difference being that of the doubles. For an
    estimate of at most [10 ^ 12] bytes the product that is rounded is the
    exact one up to [10 ^ -3]; for an estimated (or output) size of at most
    1000 times the original size the percentage that is rounded is the exact
    one up to [10 ^ -9]. Both percentages are signed: each is negative only
    when the estimated (or the output) size exceeds the original size, and
    is negative when it exceeds it by one percent. *)
Theorem C6_estimate_and_saved_percent
    (t : string -> string) (s : State) (info : FileInfo.t) (params : Resolved_params) :
  fileInfo s = Some info ->
  resolveState s = Some params ->
  0 < FileInfo.size info ->
  (is_Some (file s) -> result s = None -> processing s = false ->
   0 <= r_bitrate params <= 1000000 -> (0 <= FileInfo.duration info)%Q ->
   (inject_Z (r_bitrate params) * 125 * FileInfo.duration info <= 1000000000000)%Q ->
   exists e : EstimateInfo,
     estimateInfo s = Some e /\
     estimatedSize e =
       Js.Math_round
         (Double.mul (Double.mul (inject_Z (r_bitrate params)) 125)
            (FileInfo.duration info)) /\
     (inject_Z (estimatedSize e) - (1 # 2) - (1 # 1000)
        <= inject_Z (r_bitrate params) * 125 * FileInfo.duration info)%Q /\
     (inject_Z (r_bitrate params) * 125 * FileInfo.duration info
        < inject_Z (estimatedSize e) + (1 # 2) + (1 # 1000))%Q /\
     compressionRatio e =
       Js.Math_round
         (Double.mul
            (Double.sub 1
               (Double.div (inject_Z (estimatedSize e)) (inject_Z (FileInfo.size info))))
            100) /\
     (estimatedSize e <= 1000 * FileInfo.size info ->
      (inject_Z (compressionRatio e) - (1 # 2) - (1 # 1000000000)
         <= (1 - inject_Z (estimatedSize e) / inject_Z (FileInfo.size info)) * 100)%Q /\
      ((1 - inject_Z (estimatedSize e) / inject_Z (FileInfo.size info)) * 100
         < inject_Z (compressionRatio e) + (1 # 2) + (1 # 1000000000))%Q) /\
     (compressionRatio e < 0 -> FileInfo.size info < estimatedSize e) /\
     (101 * FileInfo.size info <= 100 * estimatedSize e -> compressionRatio e < 0)) /\
  (forall res : Result.t, result s = Some res ->
   exists v : SavedStat,
     savedStat t s = Some v /\
     saved v =
       Js.Math_round
         (Double.mul
            (Double.sub 1
               (Double.div (inject_Z (Result.size res)) (inject_Z (FileInfo.size info))))
            100) /\
     (0 <= Result.size res <= 1000 * FileInfo.size info ->
      (inject_Z (saved v) - (1 # 2) - (1 # 1000000000)
         <= (1 - inject_Z (Result.size res) / inject_Z (FileInfo.size info)) * 100)%Q /\
      ((1 - inject_Z (Result.size res) / inject_Z (FileInfo.size info)) * 100
         < inject_Z (saved v) + (1 # 2) + (1 # 1000000000))%Q) /\
     (saved v < 0 -> FileInfo.size info < Result.size res) /\
     (101 * FileInfo.size info <= 100 * Result.size res -> saved v < 0)).
Proof.
  intros Hinfo Hres Hsize.
  assert (forall a : Z,
            let ratio :=
              Js.Math_round
                (Double.mul
                   (Double.sub 1 (Double.div (inject_Z a) (inject_Z (FileInfo.size info))))
                   100) in
            (0 <= a <= 1000 * FileInfo.size info ->
             (inject_Z ratio - (1 # 2) - (1 # 1000000000)
                <= (1 - inject_Z a / inject_Z (FileInfo.size info)) * 100)%Q /\
             ((1 - inject_Z a / inject_Z (FileInfo.size info)) * 100
                < inject_Z ratio + (1 # 2) + (1 # 1000000000))%Q) /\
            (ratio < 0 -> FileInfo.size info < a) /\
            (101 * FileInfo.size info <= 100 * a -> ratio < 0)) as Hpercent.
  { intros a ratio. split; [|split].
    - intros [Ha Hmax].
      destruct (percent_close a (FileInfo.size info) Hsize Ha Hmax) as [Hlo Hhi].
      destruct (Math_round_nearest
                  (Double.mul
                     (Double.sub 1
                        (Double.div (inject_Z a) (inject_Z (FileInfo.size info))))
                     100)) as [Nlo Nhi].
      fold ratio in Nlo, Nhi. split; lra.
    - intros Hneg. apply Z.lt_nge. intros Hle.
      pose proof (percent_nonneg a (FileInfo.size info) Hsize Hle). fold ratio in H. lia.
    - intros Hbig. apply percent_negative; assumption. }
  split.
  - intros [f Hfile] Hresult Hproc Hb Hd Hmax.
    unfold estimateInfo.
    rewrite Hfile, Hinfo, Hresult, Hproc, (resolveState_bitrate s params Hres).
    eexists. split; [reflexivity|]. cbn [estimatedSize compressionRatio].
    set (computed :=
           Double.mul (Double.mul (inject_Z (r_bitrate params)) 125)
             (FileInfo.duration info)).
    destruct (estimate_close (r_bitrate params) (FileInfo.duration info) Hb Hd Hmax)
      as [Hlo Hhi].
    fold computed in Hlo, Hhi.
    destruct (Math_round_nearest computed) as [Nlo Nhi].
    assert (0 <= Js.Math_round computed) as Hnonneg.
    { apply Z.le_trans with (Js.Math_round 0); [reflexivity|].
      apply Math_round_monotone, estimate_nonneg; [exact Hd|apply Hb]. }
    destruct (Hpercent (Js.Math_round computed)) as (Hclose & Hneg & Hbig).
    split; [reflexivity|]. split; [lra|]. split; [lra|]. split; [reflexivity|].
    split; [|split; assumption].
    intros Hle. apply Hclose. split; assumption.
  - intros res Hresult. unfold savedStat. rewrite Hresult, Hinfo.
    specialize (Hpercent (Result.size res)). cbv zeta in Hpercent.
    destruct (0 <=? _); eexists; (split; [reflexivity|]); cbn [saved];
      (split; [reflexivity|]); exact Hpercent.
Qed.

Lemma C6_estimate_and_saved_percent_witness :
  (exists e : EstimateInfo,
      estimateInfo (Sample.parsed 10485760 240) = Some e /\
      estimatedSize e = 3840000 /\ compressionRatio e = 63) /\
  (exists v : SavedStat,
      savedStat Sample.t (Sample.compressed 1000 2000) = Some v /\ saved v = -100).
Proof.
  split.
  - destruct (C6_estimate_and_saved_percent Sample.t (Sample.parsed 10485760 240)
                (FileInfo.mk "song.mp3" 10485760 240 350 44100 2)
                (mkParams 128 (Some 44100) (Some 2)) eq_refl eq_refl eq_refl)
      as [Hestimate _].
    destruct Hestimate as (e & He & Hsize & _ & _ & Hratio & _);
      [eexists; reflexivity|reflexivity|reflexivity|cbn; lia|discriminate
      |vm_compute; discriminate|].
    exists e. split; [exact He|].
    assert (estimatedSize e = 3840000) as Hvalue
      by (rewrite Hsize; vm_compute; reflexivity).
    split; [exact Hvalue|].
    rewrite Hratio, Hvalue. vm_compute. reflexivity.
  - destruct (C6_estimate_and_saved_percent Sample.t (Sample.compressed 1000 2000)
                (FileInfo.mk "song.mp3" 1000 240 128 44100 2)
                (mkParams 128 (Some 44100) (Some 2)) eq_refl eq_refl eq_refl)
      as [_ Hsaved].
    destruct (Hsaved (Result.mk [] 2000) eq_refl) as (v & Hv & Hval & _).
    exists v. split; [exact Hv|]. rewrite Hval. vm_compute. reflexivity.
Defined.

(** ** The two ratio displays at zero *)

Lemma estimateInfo_display (s : State) (e : EstimateInfo) :
  estimateInfo s = Some e ->
  ratioClassName e = (if 0 <? compressionRatio e then "positive" else "negative") /\
  ratioText e =
    (if 0 <? compressionRatio e
     then "-" +:+ Js.toString (compressionRatio e) +:+ "%"
     else "+" +:+ Js.toString (Js.Math_abs (compressionRatio e)) +:+ "%").
Proof.
  unfold estimateInfo.
  destruct (file s), (fileInfo s) as [info|], (result s), (processing s);
    try discriminate.
  destruct (resolveField _ _ _ _) as [bitrate|]; [|discriminate].
  intros [= <-]. split; reflexivity.
Qed.

Lemma savedStat_display (t : string -> string) (s : State) (v : SavedStat) :
  savedStat t s = Some v ->
  statLabel v = (if 0 <=? saved v then t "saved" else t "increased") /\
  statClassName v =
    (if 0 <=? saved v then "stat-value highlight" else "stat-value negative") /\
  statText v =
    (if 0 <=? saved v then Js.toString (saved v) +:+ "%"
     else Js.toString (Js.Math_abs (saved v)) +:+ "%").
Proof.
  unfold savedStat. destruct (result s) as [res|]; [|discriminate].
  destruct (fileInfo s) as [info|]; [|discriminate].
  destruct (0 <=? _) eqn:Hsign; intros [= <-]; cbn [saved statLabel statClassName statText];
    rewrite Hsign; repeat split; reflexivity.
Qed.

(** C10. A saved percentage of exactly 0 is shown under the label of a
    saving, as [0%]; an estimated ratio of exactly 0 is shown as an increase,
    [+0%], in the negative style. *)
Theorem C10_zero_boundary_displays_disagree
    (t : string -> string) (s s' : State) (e : EstimateInfo) (v : SavedStat) :
  savedStat t s = Some v -> saved v = 0 ->
  estimateInfo s' = Some e -> compressionRatio e = 0 ->
  (statLabel v = t "saved" /\ statClassName v = "stat-value highlight" /\
   statText v = "0%") /\
  (ratioClassName e = "negative" /\ ratioText e = "+0%").
Proof.
  intros Hv Hsaved He Hratio.
  destruct (savedStat_display t s v Hv) as (Hlabel & Hclass & Htext).
  destruct (estimateInfo_display s' e He) as (Hrclass & Hrtext).
  rewrite Hsaved in Hlabel, Hclass, Htext. rewrite Hratio in Hrclass, Hrtext.
  repeat split; assumption.
Qed.

Lemma C10_zero_boundary_witness :
  exists (v : SavedStat) (e : EstimateInfo),
    savedStat Sample.t (Sample.compressed 1000 1000) = Some v /\
    estimateInfo (Sample.parsed 3840000 240) = Some e /\
    (statLabel v = "saved" /\ statClassName v = "stat-value highlight" /\
     statText v = "0%") /\
    (ratioClassName e = "negative" /\ ratioText e = "+0%").
Proof.
  eexists. eexists. split; [reflexivity|]. split; [reflexivity|].
  exact (C10_zero_boundary_displays_disagree Sample.t
           (Sample.compressed 1000 1000) (Sample.parsed 3840000 240) _ _
           eq_refl eq_refl eq_refl eq_refl).
Defined.

(** ** Display of sizes, durations and progress *)

Lemma Math_round_integer (n : Z) : Js.Math_round (inject_Z n) = n.
Proof.
  pose proof (Math_round_nearest (inject_Z n)) as [Hlo Hhi].
  set (b := Js.Math_round (inject_Z n)) in *.
  assert (inject_Z b < inject_Z (n + 1))%Q as H1
    by (rewrite inject_Z_plus; change (inject_Z 1) with 1%Q; lra).
  assert (inject_Z n < inject_Z (b + 1))%Q as H2
    by (rewrite inject_Z_plus; change (inject_Z 1) with 1%Q; lra).
  rewrite <- Zlt_Qlt in H1, H2. lia.
Qed.

(** The rounding of [a / d * 100], with the division cleared. *)
Lemma Math_round_hundredths (a d : Z) :
  0 < d ->
  let n := Js.Math_round (inject_Z a / inject_Z d * 100) in
  2 * n * d - d <= 200 * a /\ 200 * a < 2 * n * d + d.
Proof.
  intros Hd n.
  destruct (Math_round_nearest (inject_Z a / inject_Z d * 100)) as [Hlo Hhi].
  fold n in Hlo, Hhi.
  assert (0 < inject_Z d)%Q as Hq
    by (change 0%Q with (inject_Z 0); rewrite <- Zlt_Qlt; lia).
  set (A := inject_Z a) in *. set (D := inject_Z d) in *. set (N := inject_Z n) in *.
  assert (A / D * 100 * D == A * 100)%Q as Heq by (field; lra).
  assert ((N - (1 # 2)) * D <= A / D * 100 * D)%Q as H1
    by (apply Qmult_le_compat_r; lra).
  assert (A / D * 100 * D < (N + (1 # 2)) * D)%Q as H2
    by (apply Qmult_lt_compat_r; lra).
  assert (inject_Z (2 * n * d) <= inject_Z (200 * a + d))%Q as H3.
  { rewrite inject_Z_plus, !inject_Z_mult. fold A D N.
    change (inject_Z 2) with 2%Q. change (inject_Z 200) with 200%Q. lra. }
  assert (inject_Z (200 * a) < inject_Z (2 * n * d + d))%Q as H4.
  { rewrite inject_Z_plus, !inject_Z_mult. fold A D N.
    change (inject_Z 2) with 2%Q. change (inject_Z 200) with 200%Q. lra. }
  rewrite <- Zle_Qle in H3. rewrite <- Zlt_Qlt in H4. lia.
Qed.

(** A number below 100 is written on two places. *)
Lemma two_digits (r : Z) :
  0 <= r < 100 -> String.length (Js.padStart 2 "0" (Js.toString r)) = 2%nat.
Proof.
  intros Hr. replace r with (Z.of_nat (Z.to_nat r)) by lia.
  assert (Z.to_nat r < 100)%nat as Hn by lia.
  revert Hn. generalize (Z.to_nat r). clear r Hr. intros n Hn.
  do 100 (destruct n as [|n]; [reflexivity|]). lia.
Qed.

Lemma toFixed2_nonneg (x : Q) :
  (0 <= x)%Q ->
  toFixed2 x =
    Js.toString (Js.Math_round (x * 100) / 100) +:+ "." +:+
    Js.padStart 2 "0" (Js.toString (Js.Math_round (x * 100) mod 100)).
Proof.
  intros Hx. unfold toFixed2. destruct (Qlt_le_dec x 0) as [Hneg|_]; [lra|reflexivity].
Qed.

(** X1. A size of at least 1024 bytes is shown in KB below 1 MiB and in MB
    from there on, as a number with exactly two decimals that differs from
    the true quotient by at most 0.005. *)
Theorem formatFileSize_two_decimals (bytes : Z) :
  1024 <= bytes ->
  exists (n divisor : Z) (unit : string),
    ((bytes < 1048576 /\ divisor = 1024 /\ unit = " KB") \/
     (1048576 <= bytes /\ divisor = 1048576 /\ unit = " MB")) /\
    formatFileSize bytes =
      (Js.toString (n / 100) +:+ "." +:+ Js.padStart 2 "0" (Js.toString (n mod 100)))
      +:+ unit /\
    String.length (Js.padStart 2 "0" (Js.toString (n mod 100))) = 2%nat /\
    2 * n * divisor - divisor <= 200 * bytes /\
    200 * bytes < 2 * n * divisor + divisor.
Proof.
  intros Hbytes.
  assert (0 <= inject_Z bytes)%Q as Hq
    by (change 0%Q with (inject_Z 0); rewrite <- Zle_Qle; lia).
  unfold formatFileSize.
  destruct (Z.ltb_spec bytes 1024) as [Hlt|_]; [lia|].
  destruct (Z.ltb_spec bytes (1024 * 1024)) as [Hkb|Hmb].
  - exists (Js.Math_round (inject_Z bytes / inject_Z 1024 * 100)), 1024, " KB".
    split; [left; repeat split; lia|].
    split.
    { rewrite toFixed2_nonneg; [reflexivity|].
      apply Qle_shift_div_l; [reflexivity|]. lra. }
    split; [apply two_digits, Z.mod_pos_bound; lia|].
    apply (Math_round_hundredths bytes 1024). lia.
  - exists (Js.Math_round (inject_Z bytes / inject_Z 1048576 * 100)), 1048576, " MB".
    split; [right; repeat split; lia|].
    split.
    { rewrite toFixed2_nonneg.
      - rewrite (Math_round_comp (inject_Z bytes / (1024 * 1024) * 100)
                   (inject_Z bytes / inject_Z 1048576 * 100)); reflexivity.
      - apply Qle_shift_div_l; [reflexivity|]. lra. }
    split; [apply two_digits, Z.mod_pos_bound; lia|].
    apply (Math_round_hundredths bytes 1048576). lia.
Qed.

Lemma formatFileSize_two_decimals_witness :
  exists (n divisor : Z) (unit : string),
    ((10485760 < 1048576 /\ divisor = 1024 /\ unit = " KB") \/
     (1048576 <= 10485760 /\ divisor = 1048576 /\ unit = " MB")) /\
    formatFileSize 10485760 =
      (Js.toString (n / 100) +:+ "." +:+ Js.padStart 2 "0" (Js.toString (n mod 100)))
      +:+ unit /\
    String.length (Js.padStart 2 "0" (Js.toString (n mod 100))) = 2%nat /\
    2 * n * divisor - divisor <= 200 * 10485760 /\
    200 * 10485760 < 2 * n * divisor + divisor.
Proof. apply (formatFileSize_two_decimals 10485760). lia. Defined.

(** X2. The five sizes just below 1 MiB are rounded up to the unit boundary
    and still shown in KB, as [1024.00 KB]. *)
Theorem formatFileSize_rounds_up_to_1024_KB (bytes : Z) :
  1048571 <= bytes < 1048576 -> formatFileSize bytes = "1024.00 KB".
Proof.
  intros Hbytes.
  assert (bytes = 1048571 \/ bytes = 1048572 \/ bytes = 1048573 \/
          bytes = 1048574 \/ bytes = 1048575) as Hcases by lia.
  destruct Hcases as [-> | [-> | [-> | [-> | ->]]]]; reflexivity.
Qed.

Lemma formatFileSize_rounds_up_witness :
  formatFileSize 1048571 = "1024.00 KB".
Proof. apply (formatFileSize_rounds_up_to_1024_KB 1048571). lia. Defined.

Lemma Qfloor_unique (x : Q) (z : Z) :
  (inject_Z z <= x)%Q -> (x < inject_Z (z + 1))%Q -> Qfloor x = z.
Proof.
  intros Hlo Hhi.
  pose proof (Qfloor_le x) as Hfl. pose proof (Qlt_floor x) as Hfh.
  assert (inject_Z (Qfloor x) < inject_Z (z + 1))%Q as H1 by lra.
  assert (inject_Z z < inject_Z (Qfloor x + 1))%Q as H2 by lra.
  rewrite <- Zlt_Qlt in H1, H2. lia.
Qed.

Lemma trunc_nonneg (x : Q) : (0 <= x)%Q -> Js.trunc x = Qfloor x.
Proof.
  destruct x as [n d]. unfold Qle, Js.trunc, Qfloor. cbn [Qnum Qden].
  intros Hn. apply Z.quot_div_nonneg; lia.
Qed.

Lemma Qfloor_div_60 (x : Q) : (0 <= x)%Q -> Qfloor (x / 60) = Qfloor x / 60.
Proof.
  intros Hx. pose proof (Qfloor_le x) as Hfl. pose proof (Qlt_floor x) as Hfh.
  rewrite inject_Z_plus in Hfh. change (inject_Z 1) with 1%Q in Hfh.
  pose proof (Z.div_mod (Qfloor x) 60 ltac:(lia)) as Hdm.
  pose proof (Z.mod_pos_bound (Qfloor x) 60 ltac:(lia)) as Hr.
  set (m := Qfloor x / 60) in *. set (r := Qfloor x mod 60) in *.
  assert (inject_Z (Qfloor x) == 60 * inject_Z m + inject_Z r)%Q as Hq.
  { rewrite Hdm, inject_Z_plus, inject_Z_mult. reflexivity. }
  assert (0 <= inject_Z r)%Q as Hr0
    by (change 0%Q with (inject_Z 0); rewrite <- Zle_Qle; lia).
  assert (inject_Z r <= 59)%Q as Hr1
    by (change 59%Q with (inject_Z 59); rewrite <- Zle_Qle; lia).
  apply Qfloor_unique.
  - apply Qle_shift_div_l; [reflexivity|]. lra.
  - rewrite inject_Z_plus. change (inject_Z 1) with 1%Q.
    apply Qlt_shift_div_r; [reflexivity|]. lra.
Qed.

Lemma Qfloor_rem_60 (x : Q) : (0 <= x)%Q -> Qfloor (Js.rem x 60) = Qfloor x mod 60.
Proof.
  intros Hx. unfold Js.rem.
  assert (0 <= x / 60)%Q as Hx60 by (apply Qle_shift_div_l; [reflexivity|]; lra).
  rewrite (trunc_nonneg _ Hx60), (Qfloor_div_60 x Hx).
  pose proof (Qfloor_le x) as Hfl. pose proof (Qlt_floor x) as Hfh.
  rewrite inject_Z_plus in Hfh. change (inject_Z 1) with 1%Q in Hfh.
  pose proof (Z.div_mod (Qfloor x) 60 ltac:(lia)) as Hdm.
  set (m := Qfloor x / 60) in *. set (r := Qfloor x mod 60) in *.
  assert (inject_Z (Qfloor x) == 60 * inject_Z m + inject_Z r)%Q as Hq.
  { rewrite Hdm, inject_Z_plus, inject_Z_mult. reflexivity. }
  apply Qfloor_unique.
  - lra.
  - rewrite inject_Z_plus. change (inject_Z 1) with 1%Q. lra.
Qed.

(** X3. A non-negative duration is shown as its whole seconds split into
    minutes and seconds: the minutes are the quotient by 60 (they are not
    carried into hours) and the seconds the remainder, on two places. *)
Theorem formatDuration_minutes_seconds (seconds : Q) :
  (0 <= seconds)%Q ->
  formatDuration seconds =
    Js.toString (Qfloor seconds / 60) +:+ ":" +:+
    Js.padStart 2 "0" (Js.toString (Qfloor seconds mod 60)) /\
  String.length (Js.padStart 2 "0" (Js.toString (Qfloor seconds mod 60))) = 2%nat.
Proof.
  intros Hs. split.
  - unfold formatDuration, Js.Math_floor.
    rewrite (Qfloor_div_60 seconds Hs), (Qfloor_rem_60 seconds Hs). reflexivity.
  - apply two_digits.
    pose proof (Z.mod_pos_bound (Qfloor seconds) 60 ltac:(lia)). lia.
Qed.

Lemma formatDuration_minutes_seconds_witness :
  formatDuration (7325 # 2) = "61:02".
Proof.
  exact (proj1 (formatDuration_minutes_seconds (7325 # 2) ltac:(discriminate))).
Defined.

(** X4. The progress event stores a percentage, whatever the time it
    carries: for a fraction between 0 and 1 the stored progress is between 0
    and 100, and an event with a larger fraction does not store a smaller
    progress. *)
Theorem onProgress_percentage
    (t : string -> string) (fraction fraction' time time' : Q) (s s' : State) :
  (0 <= fraction)%Q -> (fraction <= fraction')%Q -> (fraction' <= 1)%Q ->
  0 <= progress (onProgress t fraction time s) /\
  progress (onProgress t fraction time s)
    <= progress (onProgress t fraction' time' s') /\
  progress (onProgress t fraction' time' s') <= 100.
Proof.
  intros H0 Hle H1.
  assert (forall f x u, progress (onProgress t f x u)
                        = Js.Math_round (Double.mul f 100)) as Hp
    by (intros f x u; unfold onProgress; destruct (Qlt_le_dec 0 x); reflexivity).
  rewrite !Hp. unfold Double.mul. split; [|split].
  - apply Z.le_trans with (Js.Math_round 0); [reflexivity|].
    apply Math_round_monotone, round_nonneg. lra.
  - apply Math_round_monotone, round_monotone. lra.
  - apply Z.le_trans with (Js.Math_round 100); [|reflexivity].
    apply Math_round_monotone.
    apply Qle_trans with (Double.round 100); [apply round_monotone; lra|].
    pose proof round_100. lra.
Qed.

Lemma onProgress_percentage_witness :
  0 <= progress (onProgress Sample.t (21 # 64) 2500000 initialState) /\
  progress (onProgress Sample.t (21 # 64) 2500000 initialState)
    <= progress (onProgress Sample.t (3 # 4) 6000000 initialState) /\
  progress (onProgress Sample.t (3 # 4) 6000000 initialState) <= 100.
Proof.
  exact (onProgress_percentage Sample.t (21 # 64) (3 # 4) 2500000 6000000
           initialState initialState
           ltac:(discriminate) ltac:(discriminate) ltac:(discriminate)).
Defined.

(** ** The estimate as a function of the bitrate *)

Lemma estimateInfo_values (s : State) (e : EstimateInfo) :
  estimateInfo s = Some e ->
  exists info bitrate,
    fileInfo s = Some info /\
    resolveField (selectedPreset s) (customBitrate s) Preset.bitrate
      (findPreset (selectedPreset s)) = Some bitrate /\
    estimatedSize e =
      Js.Math_round
        (Double.mul (Double.mul (inject_Z bitrate) 125) (FileInfo.duration info)) /\
    compressionRatio e =
      Js.Math_round
        (Double.mul
           (Double.sub 1
              (Double.div (inject_Z (estimatedSize e)) (inject_Z (FileInfo.size info))))
           100).
Proof.
  unfold estimateInfo.
  destruct (file s), (fileInfo s) as [info|], (result s), (processing s);
    try discriminate.
  destruct (resolveField _ _ _ _) as [bitrate|]; [|discriminate].
  intros [= <-]. exists info, bitrate. repeat split; reflexivity.
Qed.

(** X5. For the same parsed file (non-negative duration, positive size),
    a selection that resolves to a higher bitrate never shows a smaller
    estimated size nor a larger compression ratio. *)
Theorem estimate_monotone_in_bitrate
    (s s' : State) (info : FileInfo.t) (params params' : Resolved_params)
    (e e' : EstimateInfo) :
  fileInfo s = Some info -> fileInfo s' = Some info ->
  (0 <= FileInfo.duration info)%Q -> 0 < FileInfo.size info ->
  resolveState s = Some params -> resolveState s' = Some params' ->
  r_bitrate params <= r_bitrate params' ->
  estimateInfo s = Some e -> estimateInfo s' = Some e' ->
  estimatedSize e <= estimatedSize e' /\ compressionRatio e' <= compressionRatio e.
Proof.
  intros Hinfo Hinfo' Hdur Hsize Hres Hres' Hle He He'.
  apply estimateInfo_values in He as (i & b & Hi & Hb & Hsz & Hratio).
  apply estimateInfo_values in He' as (i' & b' & Hi' & Hb' & Hsz' & Hratio').
  rewrite Hinfo in Hi. rewrite Hinfo' in Hi'. injection Hi as <-. injection Hi' as <-.
  rewrite (resolveState_bitrate s params Hres) in Hb. injection Hb as <-.
  rewrite (resolveState_bitrate s' params' Hres') in Hb'. injection Hb' as <-.
  assert (estimatedSize e <= estimatedSize e') as Hmono.
  { rewrite Hsz, Hsz'. apply Math_round_monotone, estimate_monotone; assumption. }
  split; [exact Hmono|].
  rewrite Hratio, Hratio'. apply Math_round_monotone, percent_antitone; assumption.
Qed.

Lemma estimate_monotone_in_bitrate_witness :
  exists e e' : EstimateInfo,
    estimateInfo (Sample.parsed 10485760 240) = Some e /\
    estimateInfo (setSelectedPreset "high" (Sample.parsed 10485760 240)) = Some e' /\
    estimatedSize e <= estimatedSize e' /\ compressionRatio e' <= compressionRatio e.
Proof.
  eexists. eexists. split; [reflexivity|]. split; [reflexivity|].
  exact (estimate_monotone_in_bitrate
           (Sample.parsed 10485760 240)
           (setSelectedPreset "high" (Sample.parsed 10485760 240))
           (FileInfo.mk "song.mp3" 10485760 240 350 44100 2)
           (mkParams 128 (Some 44100) (Some 2)) (mkParams 256 (Some 44100) (Some 2))
           _ _ eq_refl eq_refl ltac:(discriminate) eq_refl eq_refl eq_refl
           ltac:(discriminate) eq_refl eq_refl).
Defined.

(** X6. For a parsed file of positive size and non-negative duration and a
    non-negative resolved bitrate, the estimated size is not negative and the
    compression ratio does not exceed 100. *)
Theorem estimate_bounds
    (s : State) (info : FileInfo.t) (params : Resolved_params) (e : EstimateInfo) :
  fileInfo s = Some info -> 0 < FileInfo.size info ->
  (0 <= FileInfo.duration info)%Q ->
  resolveState s = Some params -> 0 <= r_bitrate params ->
  estimateInfo s = Some e ->
  0 <= estimatedSize e /\ compressionRatio e <= 100.
Proof.
  intros Hinfo Hsize Hdur Hres Hb He.
  apply estimateInfo_values in He as (i & b & Hi & Hbit & Hsz & Hratio).
  rewrite Hinfo in Hi. injection Hi as <-.
  rewrite (resolveState_bitrate s params Hres) in Hbit. injection Hbit as <-.
  assert (0 <= estimatedSize e) as Hnonneg.
  { rewrite Hsz. apply Z.le_trans with (Js.Math_round 0); [reflexivity|].
    apply Math_round_monotone, estimate_nonneg; assumption. }
  split; [exact Hnonneg|]. rewrite Hratio. apply percent_at_most_100; assumption.
Qed.

Lemma estimate_bounds_witness :
  exists e : EstimateInfo,
    estimateInfo (Sample.parsed 10485760 240) = Some e /\
    0 <= estimatedSize e /\ compressionRatio e <= 100.
Proof.
  eexists. split; [reflexivity|].
  exact (estimate_bounds (Sample.parsed 10485760 240)
           (FileInfo.mk "song.mp3" 10485760 240 350 44100 2)
           (mkParams 128 (Some 44100) (Some 2)) _
           eq_refl eq_refl ltac:(discriminate) eq_refl ltac:(discriminate) eq_refl).
Defined.

(** X7. For a parsed file of positive size and an output of non-negative
    size, the saved percentage does not exceed 100. *)
Theorem saved_at_most_100
    (t : string -> string) (s : State) (info : FileInfo.t) (res : Result.t)
    (v : SavedStat) :
  fileInfo s = Some info -> 0 < FileInfo.size info ->
  result s = Some res -> 0 <= Result.size res ->
  savedStat t s = Some v ->
  saved v <= 100.
Proof.
  intros Hinfo Hsize Hres Hout Hv. unfold savedStat in Hv. rewrite Hres, Hinfo in Hv.
  destruct (0 <=? _); injection Hv as <-; cbn [saved];
    apply percent_at_most_100; assumption.
Qed.

Lemma saved_at_most_100_witness :
  exists v : SavedStat,
    savedStat Sample.t (Sample.compressed 1000 0) = Some v /\ saved v <= 100.
Proof.
  assert (savedStat Sample.t (Sample.compressed 1000 0)
          = Some (mkSavedStat 100 "saved" "stat-value highlight" "100%")) as Hv
    by (vm_compute; reflexivity).
  eexists. split; [exact Hv|].
  exact (saved_at_most_100 Sample.t (Sample.compressed 1000 0)
           (FileInfo.mk "song.mp3" 1000 240 128 44100 2) (Result.mk [] 0) _
           eq_refl eq_refl eq_refl ltac:(discriminate) Hv).
Defined.

(** ** The name of the download *)

Lemma extensionChars_no_dot (x y : string) : extensionChars (x +:+ "." +:+ y) = false.
Proof.
  induction x as [|c x IH]; [reflexivity|].
  change (String c x +:+ "." +:+ y) with (String c (x +:+ "." +:+ y)).
  cbn [extensionChars]. rewrite IH.
  destruct (x +:+ "." +:+ y) eqn:Hxy.
  - destruct x; discriminate Hxy.
  - apply andb_false_r.
Qed.

Lemma extensionChars_chars (s : string) :
  extensionChars s = true <->
  s <> "" /\ forall c, In c (String.list_ascii_of_string s) -> c <> "/"%char /\ c <> "."%char.
Proof.
  induction s as [|c s IH].
  - cbn. split; [discriminate|]. intros [[] _]. reflexivity.
  - cbn [extensionChars String.list_ascii_of_string].
    rewrite !andb_true_iff, !negb_true_iff, !Ascii.eqb_neq. split.
    + intros [[Hs Hd] Hrest]. split; [discriminate|].
      intros c' [<-|Hin]; [split; assumption|].
      destruct s as [|c2 s2]; [contradiction|]. apply IH; assumption.
    + intros [_ Hall]. split.
      * apply Hall. left. reflexivity.
      * destruct s as [|c2 s2]; [reflexivity|]. apply IH. split; [discriminate|].
        intros c' Hin. apply Hall. right. exact Hin.
Qed.

Lemma stripExtension_extension (base extension : string) :
  extensionChars extension = true ->
  stripExtension (base +:+ "." +:+ extension) = base.
Proof.
  intros Hext. induction base as [|c base IH].
  - change ("" +:+ "." +:+ extension) with (String "."%char extension).
    cbn [stripExtension]. rewrite Ascii.eqb_refl, Hext. reflexivity.
  - change (String c base +:+ "." +:+ extension)
      with (String c (base +:+ "." +:+ extension)).
    cbn [stripExtension].
    rewrite extensionChars_no_dot, andb_false_r, IH. reflexivity.
Qed.

Lemma stripExtension_no_dot (name : string) :
  (forall c, In c (String.list_ascii_of_string name) -> c <> "."%char) ->
  stripExtension name = name.
Proof.
  induction name as [|c name IH]; [reflexivity|].
  cbn [String.list_ascii_of_string stripExtension]. intros Hall.
  assert (Ascii.eqb c "." = false) as ->
    by (apply Ascii.eqb_neq, Hall; left; reflexivity).
  cbn [andb]. rewrite IH; [reflexivity|]. intros c' Hin. apply Hall. right. exact Hin.
Qed.

(** X8. When a result and a file are present and the selection resolves,
    the download of a file named [base.extension] (the extension non-empty
    and without dot and slash) is offered as [base_<bitrate>kbps.mp3], with
    the bitrate of the selection current at the time of the download; only
    the last extension is removed. *)
Theorem handleDownload_file_name
    (s : State) (res : Result.t) (f : File.t) (params : Resolved_params)
    (base extension : string) :
  result s = Some res -> file s = Some f ->
  resolveState s = Some params ->
  File.name f = base +:+ "." +:+ extension ->
  extensionChars extension = true ->
  handleDownload s =
    Some (base +:+ "_" +:+ Js.toString (r_bitrate params) +:+ "kbps.mp3").
Proof.
  intros Hres Hfile Hparams Hname Hext. unfold handleDownload.
  rewrite Hres, Hfile, (resolveState_bitrate s params Hparams), Hname.
  rewrite (stripExtension_extension base extension Hext). reflexivity.
Qed.

Lemma handleDownload_file_name_witness :
  handleDownload
    (setFile (Some Fixture.speech) (Sample.compressed 1000 500))
  = Some "speech.final_128kbps.mp3".
Proof.
  exact (handleDownload_file_name
           (setFile (Some Fixture.speech) (Sample.compressed 1000 500))
           (Result.mk [] 500) Fixture.speech (mkParams 128 (Some 44100) (Some 2))
           "speech.final" "mp3" eq_refl eq_refl eq_refl eq_refl eq_refl).
Defined.

(** X9. A file name without a dot is kept whole in the download name. *)
Theorem handleDownload_name_without_extension
    (s : State) (res : Result.t) (f : File.t) (params : Resolved_params) :
  result s = Some res -> file s = Some f ->
  resolveState s = Some params ->
  (forall c, In c (String.list_ascii_of_string (File.name f)) -> c <> "."%char) ->
  handleDownload s =
    Some (File.name f +:+ "_" +:+ Js.toString (r_bitrate params) +:+ "kbps.mp3").
Proof.
  intros Hres Hfile Hparams Hdots. unfold handleDownload.
  rewrite Hres, Hfile, (resolveState_bitrate s params Hparams).
  rewrite (stripExtension_no_dot _ Hdots). reflexivity.
Qed.

(** ** Runs: return, outcome, and what they leave alone *)

Section Runs.

Variable t : string -> string.
Variable fetchFile : File.t -> settled bytes.

(** A resumption leaves the closure of the run and everything in the state
    but the result, the error and the two progress fields alone; it either
    suspends again, closer to the return, or returns through [finally]. *)
Lemma resume_step (r : Run) (s s' : State) (ws ws' : workspace) (next : option Run) :
  resume t fetchFile r s ws = (s', ws', next) ->
  file s' = file s /\ fileInfo s' = fileInfo s /\
  ffmpeg s' = ffmpeg s /\ loaded s' = loaded s /\ loading s' = loading s /\
  match next with
  | Some r' =>
      (remaining (run_await r') < remaining (run_await r))%nat /\
      run_ffmpeg r' = run_ffmpeg r /\ run_file r' = run_file r /\
      run_args r' = run_args r /\ error s' = error s /\
      (is_Some (result s) -> is_Some (result s'))
  | None => processing s' = false /\ progressText s' = ""
  end.
Proof.
  unfold resume.
  destruct (run_await r); repeat case_match; intros Heq; simplify_eq; cbn;
    repeat split; auto; lia.
Qed.

Lemma drive_idle (n : nat) (w : World) : runs w = [] -> drive t fetchFile n w = w.
Proof. intros Hruns. destruct n; cbn [drive]; [|rewrite Hruns]; reflexivity. Qed.

Lemma drive_returns (n : nat) (s : State) (ws : workspace) (r : Run) :
  (remaining (run_await r) <= n)%nat ->
  runs (drive t fetchFile n (mkWorld s ws [r])) = [] /\
  processing (app (drive t fetchFile n (mkWorld s ws [r]))) = false /\
  progressText (app (drive t fetchFile n (mkWorld s ws [r]))) = "".
Proof.
  revert s ws r. induction n as [|n IH]; intros s ws r Hrem.
  - destruct (run_await r); cbn in Hrem; lia.
  - rewrite drive_sole_run, settle_sole_run.
    destruct (resume t fetchFile r s ws) as [[s' ws'] [r'|]] eqn:Hres;
      apply resume_step in Hres as (_ & _ & _ & _ & _ & Hnext).
    + apply IH. lia.
    + rewrite drive_idle by reflexivity. cbn [runs app]. tauto.
Qed.

(** What a driven run leaves alone: the selection, the file and its
    metadata. *)
Lemma drive_frame (n : nat) (s : State) (ws : workspace) (r : Run) :
  let s' := app (drive t fetchFile n (mkWorld s ws [r])) in
  selectedPreset s' = selectedPreset s /\ customBitrate s' = customBitrate s /\
  file s' = file s /\ fileInfo s' = fileInfo s.
Proof.
  revert s ws r. induction n as [|n IH]; intros s ws r; [cbn; tauto|].
  cbv zeta. rewrite drive_sole_run, settle_sole_run.
  destruct (resume t fetchFile r s ws) as [[s1 ws1] [r'|]] eqn:Hres.
  - pose proof (resume_frame _ _ _ _ _ _ _ _ Hres) as (E1 & E2 & _).
    pose proof (resume_step _ _ _ _ _ _ Hres) as (E3 & E4 & _).
    specialize (IH s1 ws1 r'). cbv zeta in IH.
    destruct IH as (I1 & I2 & I3 & I4).
    rewrite I1, I2, I3, I4. tauto.
  - pose proof (resume_frame _ _ _ _ _ _ _ _ Hres) as (E1 & E2 & _).
    pose proof (resume_step _ _ _ _ _ _ Hres) as (E3 & E4 & _).
    rewrite drive_idle by reflexivity. cbn [app]. tauto.
Qed.

End Runs.

(** X10. A run in flight returns after at most six settlements of the
    promises it awaits, whatever [fetchFile] and the engine answer and
    wherever it is suspended; when it has returned, [processing] is false and
    the progress text is empty. *)
Theorem run_returns_within_six_settlements
    (t : string -> string) (fetchFile : File.t -> settled bytes)
    (s : State) (ws : workspace) (r : Run) :
  runs (drive t fetchFile 6 (mkWorld s ws [r])) = [] /\
  processing (app (drive t fetchFile 6 (mkWorld s ws [r]))) = false /\
  progressText (app (drive t fetchFile 6 (mkWorld s ws [r]))) = "".
Proof.
  apply drive_returns. destruct (run_await r); cbn; lia.
Qed.

(** ** Further invariants of the reachable states *)

Section Invariants.

Variable t : string -> string.
Variable fetchFile : File.t -> settled bytes.

Lemma handleFileSelect_audio (f : File.t) (s : State) :
  isAudioFile f = true ->
  handleFileSelect t f s = setFile (Some f) (setResult None (setError None s)).
Proof.
  unfold isAudioFile, handleFileSelect. intros Haudio.
  destruct (Js.includes (File.type f) "audio"), (Js.endsWith (File.name f) ".mp3");
    try discriminate; reflexivity.
Qed.

Lemma handleFileSelect_other (f : File.t) (s : State) :
  isAudioFile f = false ->
  handleFileSelect t f s = setError (Some (t "pleaseSelectAudio")) s.
Proof.
  unfold isAudioFile, handleFileSelect. intros Haudio.
  destruct (Js.includes (File.type f) "audio"), (Js.endsWith (File.name f) ".mp3");
    try discriminate; reflexivity.
Qed.

Lemma dispatch_engineConsistent (e : Event) (w : World) :
  engineConsistent (app w) -> engineConsistent (app (dispatch t fetchFile e w)).
Proof.
  intros Hinv. unfold dispatch.
  destruct (enabled e w) eqn:Hen; [|exact Hinv].
  destruct e; cbn [handle app]; try exact Hinv.
  - cbn in Hen. destruct Hinv as [Hloading _].
    destruct (Hloading Hen) as [Hloaded Hengine].
    unfold engineConsistent. destruct r; cbn.
    + split; [discriminate|]. split; eauto.
    + rewrite Hloaded, Hengine. split; [discriminate|].
      split; [discriminate|]. intros [? ?]. discriminate.
  - unfold handleFileSelect. case_match; exact Hinv.
  - destruct r; exact Hinv.
  - unfold onPresetClick. repeat case_match; exact Hinv.
  - unfold handleCompress. repeat case_match; exact Hinv.
  - unfold settle. destruct (runs w !! i) as [r|]; [|exact Hinv].
    destruct (resume t fetchFile r (app w) (fs w)) as [[s' ws'] next] eqn:Hres.
    apply resume_step in Hres as (_ & _ & E1 & E2 & E3 & _).
    destruct next; cbn [app]; unfold engineConsistent; rewrite E1, E2, E3;
      exact Hinv.
  - unfold onProgress. case_match; exact Hinv.
Qed.

Lemma reachable_engineConsistent (w : World) :
  reachable t fetchFile w -> engineConsistent (app w).
Proof.
  induction 1 as [|e w _ IH]; [|apply dispatch_engineConsistent, IH].
  unfold engineConsistent; cbn. split; [tauto|].
  split; [discriminate|]. intros [? ?]. discriminate.
Qed.

Lemma dispatch_quiescent (e : Event) (w : World) :
  quiescent w -> quiescent (dispatch t fetchFile e w).
Proof.
  intros Hinv. unfold dispatch.
  destruct (enabled e w) eqn:Hen; [|exact Hinv].
  destruct e; cbn [handle]; unfold quiescent in *; cbn [runs app]; try exact Hinv.
  - destruct r; exact Hinv.
  - unfold handleFileSelect. case_match; exact Hinv.
  - destruct r; exact Hinv.
  - unfold onPresetClick. repeat case_match; exact Hinv.
  - unfold handleCompress.
    destruct (ffmpeg (app w)) as [engine|], (file (app w)) as [input|],
      (loaded (app w)); try exact Hinv.
    destruct (resolveState (app w)); cbn [runs app].
    + intros Hnil. apply app_eq_nil in Hnil as [_ Hnil]. discriminate.
    + intros _. reflexivity.
  - unfold settle. destruct (runs w !! i) as [r|] eqn:Hi; [|exact Hinv].
    destruct (resume t fetchFile r (app w) (fs w)) as [[s' ws'] next] eqn:Hres.
    apply resume_step in Hres as (_ & _ & _ & _ & _ & Hnext).
    destruct next; cbn [runs app].
    + intros Hnil. apply (f_equal length) in Hnil.
      rewrite length_insert in Hnil. apply lookup_lt_Some in Hi. cbn in Hnil. lia.
    + intros _. apply Hnext.
  - unfold onProgress. case_match; exact Hinv.
Qed.

Lemma reachable_quiescent (w : World) :
  reachable t fetchFile w -> quiescent w.
Proof.
  induction 1 as [|e w _ IH]; [|apply dispatch_quiescent, IH].
  intros _. reflexivity.
Qed.

Lemma onPresetClick_frame (id : string) (s : State) :
  file (onPresetClick id s) = file s /\ result (onPresetClick id s) = result s.
Proof.
  unfold onPresetClick. destruct s as [? ? ? f ? ? ? ? ? ? ? ? r ?]. cbn.
  destruct f, r; split; reflexivity.
Qed.

Lemma dispatch_fileKept (e : Event) (w : World) :
  fileKept w -> fileKept (dispatch t fetchFile e w).
Proof.
  intros Hinv. unfold dispatch.
  destruct (enabled e w) eqn:Hen; [|exact Hinv].
  destruct Hinv as [Hresult Hruns].
  destruct e; cbn [handle]; unfold fileKept; cbn [runs app];
    try (split; assumption).
  - destruct r; split; assumption.
  - unfold handleFileSelect. case_match; cbn; [split; assumption|].
    split; intros _; eexists; reflexivity.
  - destruct r; split; assumption.
  - destruct (onPresetClick_frame id (app w)) as [-> ->]. split; assumption.
  - assert (fileKept w) as Hkeep by (split; assumption).
    unfold handleCompress.
    destruct (ffmpeg (app w)) as [engine|]; [|exact Hkeep].
    destruct (file (app w)) as [input|] eqn:Hfile; [|exact Hkeep].
    destruct (loaded (app w)); [|exact Hkeep].
    destruct (resolveState (app w)); cbn [runs app]; cbn; rewrite Hfile;
      split; intros _; eexists; reflexivity.
  - unfold settle. destruct (runs w !! i) as [r|] eqn:Hi; [|split; assumption].
    assert (is_Some (file (app w))) as Hfile.
    { apply Hruns. intros Hnil. rewrite Hnil in Hi. discriminate. }
    destruct (resume t fetchFile r (app w) (fs w)) as [[s' ws'] next] eqn:Hres.
    apply resume_step in Hres as (E & _).
    destruct next; cbn [runs app]; rewrite E; split; intros _; exact Hfile.
  - unfold onProgress. case_match; split; assumption.
  - cbn. split; [|assumption]. intros [? ?]. discriminate.
Qed.

Lemma reachable_fileKept (w : World) :
  reachable t fetchFile w -> fileKept w.
Proof.
  induction 1 as [|e w _ IH]; [|apply dispatch_fileKept, IH].
  split; cbn; [intros [? ?]; discriminate|congruence].
Qed.

End Invariants.

(** X11. In every state the application reaches, [processing] holds
    exactly when a run is in flight, and then exactly one is: the flag is
    never left set after the run has returned. *)
Theorem processing_iff_run_in_flight
    (t : string -> string) (fetchFile : File.t -> settled bytes) (w : World) :
  reachable t fetchFile w ->
  (processing (app w) = true <-> exists r, runs w = [r]).
Proof.
  intros Hreach.
  pose proof (reachable_serialised _ _ _ Hreach) as Hser.
  pose proof (reachable_quiescent _ _ _ Hreach) as Hq.
  unfold serialised in Hser. unfold quiescent in Hq.
  destruct (runs w) as [|r [|r' rs]]; [| |contradiction].
  - rewrite Hq by reflexivity. split; [discriminate|]. intros [r Hr]. discriminate.
  - split; [eauto|]. intros _. exact Hser.
Qed.

Lemma processing_iff_run_in_flight_witness :
  processing (app Sample.running) = true <-> exists r, runs Sample.running = [r].
Proof.
  exact (processing_iff_run_in_flight Sample.t Sample.fetchFile Sample.running
           reachable_running).
Defined.

(** X12. In every state the application reaches, [loaded] holds exactly
    when the engine instance is stored, and neither does while the load is
    pending: the two tests of the engine in the guard of [handleCompress]
    agree. *)
Theorem loaded_iff_engine_stored
    (t : string -> string) (fetchFile : File.t -> settled bytes) (w : World) :
  reachable t fetchFile w ->
  (loaded (app w) = true <-> is_Some (ffmpeg (app w))) /\
  (loading (app w) = true -> loaded (app w) = false /\ ffmpeg (app w) = None).
Proof.
  intros Hreach. destruct (reachable_engineConsistent _ _ _ Hreach) as [H1 H2].
  split; assumption.
Qed.

Lemma loaded_iff_engine_stored_witness :
  (loaded (app Sample.running) = true <-> is_Some (ffmpeg (app Sample.running))) /\
  (loading (app Sample.running) = true ->
   loaded (app Sample.running) = false /\ ffmpeg (app Sample.running) = None).
Proof.
  exact (loaded_iff_engine_stored Sample.t Sample.fetchFile Sample.running
           reachable_running).
Defined.

(** X13. In every state the application reaches, a click on the compress
    button that the view lets through starts exactly one run: the guard of
    [handleCompress] passes, the parameters resolve, the error is cleared,
    the progress is reset, and the run is suspended at [fetchFile] with the
    argument list of the resolved parameters. *)
Theorem enabled_click_starts_a_run
    (t : string -> string) (fetchFile : File.t -> settled bytes) (w : World) :
  reachable t fetchFile w ->
  enabled CompressClicked w = true ->
  exists engine input params,
    ffmpeg (app w) = Some engine /\ file (app w) = Some input /\
    resolveState (app w) = Some params /\
    dispatch t fetchFile CompressClicked w =
      mkWorld
        (setError None (setProgressText (t "preparing")
           (setProgress 0 (setProcessing true (app w)))))
        (fs w)
        [mkRun engine input (argumentList params) AwaitFetchFile].
Proof.
  intros Hreach Hen.
  destruct (legalSelection_resolves (app w) (reachable_legalSelection _ _ _ Hreach))
    as (params & Hres & Hrate & Hchan).
  destruct (reachable_engineConsistent _ _ _ Hreach) as [_ Hengine].
  pose proof (reachable_serialised _ _ _ Hreach) as Hser.
  pose proof Hen as Hen'. cbn [enabled] in Hen'.
  rewrite !andb_true_iff, negb_true_iff, orb_false_iff, negb_false_iff,
    !bool_decide_eq_true in Hen'.
  destruct Hen' as [[[input Hfile] _] [Hproc Hloaded]].
  destruct (proj1 Hengine Hloaded) as [engine Hff].
  assert (runs w = []) as Hruns.
  { unfold serialised in Hser. destruct (runs w) as [|r [|r' rs]];
      [reflexivity|congruence|contradiction]. }
  exists engine, input, params. repeat split; try assumption.
  unfold dispatch. rewrite Hen. cbn [handle]. unfold handleCompress.
  rewrite Hff, Hfile, Hloaded, Hres, Hruns,
    (buildArgs_argumentList params Hrate Hchan).
  reflexivity.
Qed.

Lemma enabled_click_starts_a_run_witness :
  exists engine input params,
    ffmpeg (app (Sample.ready Sample.encoder)) = Some engine /\
    file (app (Sample.ready Sample.encoder)) = Some input /\
    resolveState (app (Sample.ready Sample.encoder)) = Some params /\
    dispatch Sample.t Sample.fetchFile CompressClicked (Sample.ready Sample.encoder) =
      mkWorld
        (setError None (setProgressText (Sample.t "preparing")
           (setProgress 0 (setProcessing true (app (Sample.ready Sample.encoder))))))
        (fs (Sample.ready Sample.encoder))
        [mkRun engine input (argumentList params) AwaitFetchFile].
Proof.
  apply (enabled_click_starts_a_run Sample.t Sample.fetchFile
           (Sample.ready Sample.encoder)).
  - unfold Sample.ready. repeat apply reachable_dispatch. apply reachable_initial.
  - reflexivity.
Defined.

(** X14. In every state the application reaches, a result is never present
    without a file, so whenever there is a result the download handler does
    not return early: it offers a file name. *)
Theorem result_can_be_downloaded
    (t : string -> string) (fetchFile : File.t -> settled bytes) (w : World) :
  reachable t fetchFile w ->
  is_Some (result (app w)) ->
  is_Some (file (app w)) /\ is_Some (handleDownload (app w)).
Proof.
  intros Hreach Hresult.
  destruct (reachable_fileKept _ _ _ Hreach) as [Hfile _].
  destruct (legalSelection_resolves (app w) (reachable_legalSelection _ _ _ Hreach))
    as (params & Hres & _).
  specialize (Hfile Hresult). split; [exact Hfile|].
  destruct Hresult as [res Hr]. destruct Hfile as [f Hf].
  unfold handleDownload.
  rewrite Hr, Hf, (resolveState_bitrate _ _ Hres). eexists. reflexivity.
Qed.

Lemma reachable_afterSettlements (n : nat) (w : World) :
  reachable Sample.t Sample.fetchFile w ->
  reachable Sample.t Sample.fetchFile (Fixture.afterSettlements n w).
Proof.
  revert w. induction n as [|n IH]; intros w Hw; [exact Hw|].
  cbn [Fixture.afterSettlements]. apply IH, reachable_dispatch, Hw.
Qed.

Lemma reachable_finished : reachable Sample.t Sample.fetchFile Fixture.finished.
Proof. apply reachable_afterSettlements, reachable_running. Qed.

Lemma reachable_unparsed : reachable Sample.t Sample.fetchFile Fixture.unparsed.
Proof.
  apply reachable_afterSettlements. unfold Sample.ready.
  repeat apply reachable_dispatch. apply reachable_initial.
Qed.

Lemma result_can_be_downloaded_witness :
  is_Some (file (app Fixture.finished)) /\
  handleDownload (app Fixture.finished) = Some "song_128kbps.mp3".
Proof.
  destruct (result_can_be_downloaded Sample.t Sample.fetchFile Fixture.finished
              reachable_finished ltac:(eexists; reflexivity)) as [Hfile _].
  split; [exact Hfile|reflexivity].
Defined.

(** ** Outcomes of a run *)

Section Outcomes.

Variable t : string -> string.
Variable fetchFile : File.t -> settled bytes.

Ltac next_settlement :=
  rewrite drive_sole_run, settle_sole_run; unfold resume;
  cbn [run_await run_file run_ffmpeg run_args suspendAt].

Lemma compress_resolved (w : World) (engine : FFmpeg.t) (input : File.t)
    (params : Resolved_params) (data out : bytes) (code : Z)
    (ws1 ws2 ws3 ws4 ws5 : workspace) :
  runs w = [] ->
  ffmpeg (app w) = Some engine -> file (app w) = Some input -> loaded (app w) = true ->
  resolveState (app w) = Some params ->
  fetchFile input = Resolved data ->
  FFmpeg.writeFile engine "input.mp3" data (fs w) = (Resolved tt, ws1) ->
  FFmpeg.exec engine (buildArgs params) ws1 = (Resolved code, ws2) ->
  FFmpeg.readFile engine "output.mp3" ws2 = (Resolved out, ws3) ->
  FFmpeg.deleteFile engine "input.mp3" ws3 = (Resolved tt, ws4) ->
  FFmpeg.deleteFile engine "output.mp3" ws4 = (Resolved tt, ws5) ->
  compress t fetchFile w =
    mkWorld
      (finallyCompress
         (setResult (Some (Result.mk out (Z.of_nat (length out))))
            (setError None (setProgressText (t "preparing")
               (setProgress 0 (setProcessing true (app w)))))))
      ws5 [].
Proof.
  destruct w as [s ws0 rs]. cbn [runs app fs].
  intros -> Hengine Hfile Hloaded Hres Hfetch Hwrite Hexec Hread Hdel1 Hdel2.
  unfold compress, handleCompress. cbn [runs app fs].
  rewrite Hengine, Hfile, Hloaded, Hres, app_nil_l.
  next_settlement. rewrite Hfetch.
  next_settlement. rewrite Hwrite.
  next_settlement. rewrite Hexec.
  next_settlement. rewrite Hread.
  next_settlement. rewrite Hdel1.
  next_settlement. rewrite Hdel2.
  reflexivity.
Qed.

Lemma compress_delete_rejects (w : World) (engine : FFmpeg.t) (input : File.t)
    (params : Resolved_params) (data out : bytes) (code : Z) (message : string)
    (ws1 ws2 ws3 ws4 : workspace) :
  runs w = [] ->
  ffmpeg (app w) = Some engine -> file (app w) = Some input -> loaded (app w) = true ->
  resolveState (app w) = Some params ->
  fetchFile input = Resolved data ->
  FFmpeg.writeFile engine "input.mp3" data (fs w) = (Resolved tt, ws1) ->
  FFmpeg.exec engine (buildArgs params) ws1 = (Resolved code, ws2) ->
  FFmpeg.readFile engine "output.mp3" ws2 = (Resolved out, ws3) ->
  FFmpeg.deleteFile engine "input.mp3" ws3 = (Rejected message, ws4) ->
  compress t fetchFile w =
    mkWorld
      (failCompress t message
         (setResult (Some (Result.mk out (Z.of_nat (length out))))
            (setError None (setProgressText (t "preparing")
               (setProgress 0 (setProcessing true (app w)))))))
      ws4 [].
Proof.
  destruct w as [s ws0 rs]. cbn [runs app fs].
  intros -> Hengine Hfile Hloaded Hres Hfetch Hwrite Hexec Hread Hdel1.
  unfold compress, handleCompress. cbn [runs app fs].
  rewrite Hengine, Hfile, Hloaded, Hres, app_nil_l.
  next_settlement. rewrite Hfetch.
  next_settlement. rewrite Hwrite.
  next_settlement. rewrite Hexec.
  next_settlement. rewrite Hread.
  next_settlement. rewrite Hdel1.
  reflexivity.
Qed.

End Outcomes.

(** X15. When the engine is loaded and a file is chosen, a run makes its
    calls in the order write, exec, read, delete input, delete output, each
    on the workspace the previous call left. If all of them resolve, the run
    returns with the bytes read back as the result ([size] their length), no
    error, [processing] reset - whatever return code [exec] resolved with. *)
Theorem run_succeeds_when_all_calls_resolve
    (t : string -> string) (fetchFile : File.t -> settled bytes)
    (w : World) (engine : FFmpeg.t) (input : File.t)
    (params : Resolved_params) (data out : bytes) (code : Z)
    (ws1 ws2 ws3 ws4 ws5 : workspace) :
  runs w = [] ->
  ffmpeg (app w) = Some engine -> file (app w) = Some input -> loaded (app w) = true ->
  resolveState (app w) = Some params ->
  fetchFile input = Resolved data ->
  FFmpeg.writeFile engine "input.mp3" data (fs w) = (Resolved tt, ws1) ->
  FFmpeg.exec engine (buildArgs params) ws1 = (Resolved code, ws2) ->
  FFmpeg.readFile engine "output.mp3" ws2 = (Resolved out, ws3) ->
  FFmpeg.deleteFile engine "input.mp3" ws3 = (Resolved tt, ws4) ->
  FFmpeg.deleteFile engine "output.mp3" ws4 = (Resolved tt, ws5) ->
  runs (compress t fetchFile w) = [] /\
  fs (compress t fetchFile w) = ws5 /\
  result (app (compress t fetchFile w))
    = Some (Result.mk out (Z.of_nat (length out))) /\
  error (app (compress t fetchFile w)) = None /\
  processing (app (compress t fetchFile w)) = false /\
  progressText (app (compress t fetchFile w)) = "".
Proof.
  intros Hruns Hengine Hfile Hloaded Hres Hfetch Hwrite Hexec Hread Hdel1 Hdel2.
  rewrite (compress_resolved t fetchFile w engine input params data out code
             ws1 ws2 ws3 ws4 ws5) by assumption.
  cbn. repeat split.
Qed.

Lemma run_succeeds_witness :
  runs (compress Sample.t Sample.fetchFile (Sample.ready Sample.encoder)) = [] /\
  fs (compress Sample.t Sample.fetchFile (Sample.ready Sample.encoder)) = ∅ /\
  result (app (compress Sample.t Sample.fetchFile (Sample.ready Sample.encoder)))
    = Some (Result.mk [Byte.x49] 1) /\
  error (app (compress Sample.t Sample.fetchFile (Sample.ready Sample.encoder))) = None /\
  processing (app (compress Sample.t Sample.fetchFile (Sample.ready Sample.encoder)))
    = false /\
  progressText (app (compress Sample.t Sample.fetchFile (Sample.ready Sample.encoder)))
    = "".
Proof.
  exact (run_succeeds_when_all_calls_resolve Sample.t Sample.fetchFile
           (Sample.ready Sample.encoder) Sample.encoder Sample.song
           (mkParams 128 (Some 44100) (Some 2)) (File.content Sample.song)
           [Byte.x49] 0
           {[ "input.mp3" := File.content Sample.song ]}
           (<[ "output.mp3" := [Byte.x49] ]> {[ "input.mp3" := File.content Sample.song ]})
           (<[ "output.mp3" := [Byte.x49] ]> {[ "input.mp3" := File.content Sample.song ]})
           {[ "output.mp3" := [Byte.x49] ]}
           ∅
           eq_refl eq_refl eq_refl eq_refl eq_refl eq_refl eq_refl eq_refl eq_refl
           eq_refl eq_refl).
Defined.

(** X16. If the output has been read back and the deletion of the input
    then rejects, the run returns with both the result and the error set, and
    without a call to delete the output: the workspace is as the failed
    deletion left it. *)
Theorem failed_cleanup_leaves_result_and_error
    (t : string -> string) (fetchFile : File.t -> settled bytes)
    (w : World) (engine : FFmpeg.t) (input : File.t)
    (params : Resolved_params) (data out : bytes) (code : Z) (message : string)
    (ws1 ws2 ws3 ws4 : workspace) :
  runs w = [] ->
  ffmpeg (app w) = Some engine -> file (app w) = Some input -> loaded (app w) = true ->
  resolveState (app w) = Some params ->
  fetchFile input = Resolved data ->
  FFmpeg.writeFile engine "input.mp3" data (fs w) = (Resolved tt, ws1) ->
  FFmpeg.exec engine (buildArgs params) ws1 = (Resolved code, ws2) ->
  FFmpeg.readFile engine "output.mp3" ws2 = (Resolved out, ws3) ->
  FFmpeg.deleteFile engine "input.mp3" ws3 = (Rejected message, ws4) ->
  runs (compress t fetchFile w) = [] /\
  fs (compress t fetchFile w) = ws4 /\
  result (app (compress t fetchFile w))
    = Some (Result.mk out (Z.of_nat (length out))) /\
  error (app (compress t fetchFile w))
    = Some (t "compressionFailed" +:+ " " +:+ message) /\
  processing (app (compress t fetchFile w)) = false.
Proof.
  intros Hruns Hengine Hfile Hloaded Hres Hfetch Hwrite Hexec Hread Hdel1.
  rewrite (compress_delete_rejects t fetchFile w engine input params data out code
             message ws1 ws2 ws3 ws4) by assumption.
  cbn. repeat split.
Qed.

Lemma failed_cleanup_witness :
  runs (compress Sample.t Sample.fetchFile
          (Sample.ready (Fixture.undeletable (take 1)))) = [] /\
  fs (compress Sample.t Sample.fetchFile
        (Sample.ready (Fixture.undeletable (take 1))))
    = <[ "output.mp3" := [Byte.x49] ]> {[ "input.mp3" := File.content Sample.song ]} /\
  result (app (compress Sample.t Sample.fetchFile
                 (Sample.ready (Fixture.undeletable (take 1)))))
    = Some (Result.mk [Byte.x49] 1) /\
  error (app (compress Sample.t Sample.fetchFile
                (Sample.ready (Fixture.undeletable (take 1)))))
    = Some "compressionFailed ErrnoError: FS error" /\
  processing (app (compress Sample.t Sample.fetchFile
                     (Sample.ready (Fixture.undeletable (take 1))))) = false.
Proof.
  exact (failed_cleanup_leaves_result_and_error Sample.t Sample.fetchFile
           (Sample.ready (Fixture.undeletable (take 1)))
           (Fixture.undeletable (take 1)) Sample.song
           (mkParams 128 (Some 44100) (Some 2)) (File.content Sample.song)
           [Byte.x49] 0 "ErrnoError: FS error"
           {[ "input.mp3" := File.content Sample.song ]}
           (<[ "output.mp3" := [Byte.x49] ]> {[ "input.mp3" := File.content Sample.song ]})
           (<[ "output.mp3" := [Byte.x49] ]> {[ "input.mp3" := File.content Sample.song ]})
           (<[ "output.mp3" := [Byte.x49] ]> {[ "input.mp3" := File.content Sample.song ]})
           eq_refl eq_refl eq_refl eq_refl eq_refl eq_refl eq_refl eq_refl eq_refl
           eq_refl).
Defined.

(** ** What can change while a run is in flight *)

Section Interleavings.

Variable t : string -> string.
Variable fetchFile : File.t -> settled bytes.

Lemma compress_button_enabled (w : World) (input : File.t) :
  file (app w) = Some input -> result (app w) = None ->
  processing (app w) = false -> loaded (app w) = true ->
  enabled CompressClicked w = true.
Proof.
  intros Hfile Hresult Hproc Hloaded. cbn [enabled].
  rewrite Hfile, Hresult, Hproc, Hloaded.
  rewrite !bool_decide_eq_true_2 by eauto. reflexivity.
Qed.

(** The click of [Sample.ready]-like worlds: the world a let-through click
    produces. *)
Lemma click_starts (w : World) (engine : FFmpeg.t) (input : File.t)
    (params : Resolved_params) :
  ffmpeg (app w) = Some engine -> file (app w) = Some input ->
  result (app w) = None -> processing (app w) = false -> loaded (app w) = true ->
  resolveState (app w) = Some params -> runs w = [] ->
  dispatch t fetchFile CompressClicked w =
    mkWorld
      (setError None (setProgressText (t "preparing")
         (setProgress 0 (setProcessing true (app w)))))
      (fs w) [mkRun engine input (buildArgs params) AwaitFetchFile].
Proof.
  intros Hengine Hfile Hresult Hproc Hloaded Hres Hruns.
  unfold dispatch.
  rewrite (compress_button_enabled w input Hfile Hresult Hproc Hloaded).
  cbn [handle]. unfold handleCompress.
  rewrite Hengine, Hfile, Hloaded, Hres, Hruns. reflexivity.
Qed.

End Interleavings.

(** X17. The presets stay clickable while a run is in flight. A run
    started under one selection keeps the argument list built at its start;
    when another preset of the catalog is clicked before the run returns, the
    download of the result is named after the bitrate of that later preset,
    not after the bitrate the engine was given. *)
Theorem preset_clicked_during_run_renames_download
    (t : string -> string) (fetchFile : File.t -> settled bytes)
    (w : World) (engine : FFmpeg.t) (input : File.t)
    (params : Resolved_params) (later : Preset.t) :
  ffmpeg (app w) = Some engine -> file (app w) = Some input ->
  result (app w) = None -> processing (app w) = false -> loaded (app w) = true ->
  resolveState (app w) = Some params -> runs w = [] ->
  later ∈ presets -> Preset.id later <> "custom" ->
  let w1 := dispatch t fetchFile CompressClicked w in
  let w2 := dispatch t fetchFile (PresetClicked (Preset.id later)) w1 in
  let w3 := drive t fetchFile 6 w2 in
  map run_args (runs w2) = [buildArgs params] /\
  runs w3 = [] /\
  selectedPreset (app w3) = Preset.id later /\
  (is_Some (result (app w3)) ->
   handleDownload (app w3) =
     Some (stripExtension (File.name input) +:+ "_"
           +:+ Js.toString (Preset.bitrate later) +:+ "kbps.mp3")).
Proof.
  intros Hengine Hfile Hresult Hproc Hloaded Hres Hruns Hlater Hid w1 w2 w3.
  assert (w1 = mkWorld
            (setError None (setProgressText (t "preparing")
               (setProgress 0 (setProcessing true (app w)))))
            (fs w) [mkRun engine input (buildArgs params) AwaitFetchFile]) as Hw1
    by (apply click_starts; assumption).
  assert (w2 = mkWorld
            (setSelectedPreset (Preset.id later)
               (setError None (setProgressText (t "preparing")
                  (setProgress 0 (setProcessing true (app w))))))
            (fs w) [mkRun engine input (buildArgs params) AwaitFetchFile]) as Hw2.
  { unfold w2, dispatch. rewrite Hw1. cbn [enabled].
    rewrite bool_decide_eq_true_2 by (apply list_elem_of_fmap; eauto).
    cbn [handle app fs runs]. unfold onPresetClick.
    cbn [file result setError setProgressText setProgress setProcessing].
    rewrite Hfile, Hresult. reflexivity. }
  split; [rewrite Hw2; reflexivity|].
  unfold w3. rewrite Hw2.
  match goal with
  | |- context [drive t fetchFile 6 (mkWorld ?s ?ws [?r])] =>
      pose proof (drive_returns t fetchFile 6 s ws r ltac:(cbn; lia)) as (Hret & _);
      pose proof (drive_frame t fetchFile 6 s ws r) as Hframe;
      cbv zeta in Hframe; destruct Hframe as (Hsel & _ & Hf & _)
  end.
  split; [exact Hret|]. split; [rewrite Hsel; reflexivity|].
  intros [res Hr]. unfold handleDownload.
  rewrite Hr, Hf, Hsel.
  cbn [file selectedPreset setSelectedPreset setError setProgressText setProgress
         setProcessing].
  rewrite Hfile. unfold resolveField.
  apply String.eqb_neq in Hid. rewrite Hid, (findPreset_catalog later Hlater).
  reflexivity.
Qed.

Lemma preset_clicked_during_run_witness :
  map run_args
    (runs (dispatch Sample.t Sample.fetchFile (PresetClicked "minimal") Sample.running))
  = [["-i"; "input.mp3"; "-b:a"; "128k"; "-ar"; "44100"; "-ac"; "2";
      "-map"; "0:a"; "-y"; "output.mp3"]] /\
  handleDownload
    (app (drive Sample.t Sample.fetchFile 6
            (dispatch Sample.t Sample.fetchFile (PresetClicked "minimal") Sample.running)))
  = Some "song_32kbps.mp3".
Proof.
  destruct (preset_clicked_during_run_renames_download Sample.t Sample.fetchFile
              (Sample.ready Sample.encoder) Sample.encoder Sample.song
              (mkParams 128 (Some 44100) (Some 2))
              (Preset.mk "minimal" "presetMinimal" "presetMinimalDesc" 32
                 (Some 16000) (Some 1))
              eq_refl eq_refl eq_refl eq_refl eq_refl eq_refl eq_refl
              ltac:(unfold presets; do 6 apply list_elem_of_further;
                    apply list_elem_of_here)
              ltac:(discriminate))
    as (Hargs & _ & _ & Hname).
  split; [exact Hargs|]. apply Hname. eexists. reflexivity.
Defined.

(** X18. Another file can be chosen while a run is in flight. The run goes
    on with the file it was started on; when it returns, the chosen file is
    the later one, and a result the run produced is offered for download
    under the name of the later file. *)
Theorem file_chosen_during_run_renames_download
    (t : string -> string) (fetchFile : File.t -> settled bytes)
    (w : World) (engine : FFmpeg.t) (input later : File.t)
    (params : Resolved_params) :
  ffmpeg (app w) = Some engine -> file (app w) = Some input ->
  result (app w) = None -> processing (app w) = false -> loaded (app w) = true ->
  loading (app w) = false ->
  resolveState (app w) = Some params -> runs w = [] ->
  isAudioFile later = true ->
  let w1 := dispatch t fetchFile CompressClicked w in
  let w2 := dispatch t fetchFile (FileChosen later) w1 in
  let w3 := drive t fetchFile 6 w2 in
  map run_file (runs w2) = [input] /\
  runs w3 = [] /\
  file (app w3) = Some later /\
  (is_Some (result (app w3)) ->
   handleDownload (app w3) =
     Some (stripExtension (File.name later) +:+ "_"
           +:+ Js.toString (r_bitrate params) +:+ "kbps.mp3")).
Proof.
  intros Hengine Hfile Hresult Hproc Hloaded Hloading Hres Hruns Haudio w1 w2 w3.
  assert (w1 = mkWorld
            (setError None (setProgressText (t "preparing")
               (setProgress 0 (setProcessing true (app w)))))
            (fs w) [mkRun engine input (buildArgs params) AwaitFetchFile]) as Hw1
    by (apply click_starts; assumption).
  assert (w2 = mkWorld
            (setFile (Some later) (setResult None (setError None
               (setError None (setProgressText (t "preparing")
                  (setProgress 0 (setProcessing true (app w))))))))
            (fs w) [mkRun engine input (buildArgs params) AwaitFetchFile]) as Hw2.
  { unfold w2, dispatch. rewrite Hw1. cbn [enabled].
    cbn [app loading setError setProgressText setProgress setProcessing].
    rewrite Hloading. cbn [negb handle app fs runs].
    rewrite (handleFileSelect_audio t later _ Haudio). reflexivity. }
  split; [rewrite Hw2; reflexivity|].
  unfold w3. rewrite Hw2.
  match goal with
  | |- context [drive t fetchFile 6 (mkWorld ?s ?ws [?r])] =>
      pose proof (drive_returns t fetchFile 6 s ws r ltac:(cbn; lia)) as (Hret & _);
      pose proof (drive_frame t fetchFile 6 s ws r) as Hframe;
      cbv zeta in Hframe; destruct Hframe as (Hsel & Hcb & Hf & _)
  end.
  split; [exact Hret|]. split; [rewrite Hf; reflexivity|].
  intros [res Hr]. unfold handleDownload.
  rewrite Hr, Hf, Hsel, Hcb.
  cbn [file selectedPreset customBitrate setFile setResult setError setProgressText
         setProgress setProcessing].
  rewrite (resolveState_bitrate (app w) params Hres). reflexivity.
Qed.

Lemma file_chosen_during_run_witness :
  map run_file
    (runs (dispatch Sample.t Sample.fetchFile (FileChosen Fixture.speech) Sample.running))
  = [Sample.song] /\
  handleDownload
    (app (drive Sample.t Sample.fetchFile 6
            (dispatch Sample.t Sample.fetchFile (FileChosen Fixture.speech)
               Sample.running)))
  = Some "speech.final_128kbps.mp3".
Proof.
  destruct (file_chosen_during_run_renames_download Sample.t Sample.fetchFile
              (Sample.ready Sample.encoder) Sample.encoder Sample.song Fixture.speech
              (mkParams 128 (Some 44100) (Some 2))
              eq_refl eq_refl eq_refl eq_refl eq_refl eq_refl eq_refl eq_refl eq_refl)
    as (Hfiles & _ & _ & Hname).
  split; [exact Hfiles|]. apply Hname. eexists. reflexivity.
Defined.

(** ** Metadata and the file it belongs to *)

(** X19. A result without metadata is a dead end of the view: when a
    result is present but no file info (the extraction failed or has not
    settled), neither the result section nor the estimate is rendered, the
    compress button is not rendered and the recompress button neither. *)
Theorem result_without_metadata_is_not_shown
    (t : string -> string) (w : World) :
  is_Some (result (app w)) -> fileInfo (app w) = None ->
  savedStat t (app w) = None /\ estimateInfo (app w) = None /\
  enabled CompressClicked w = false /\ enabled RecompressClicked w = false.
Proof.
  intros [res Hres] Hinfo. unfold savedStat, estimateInfo. cbn [enabled].
  rewrite Hres, Hinfo. split; [reflexivity|]. split; [|split].
  - destruct (file (app w)); reflexivity.
  - rewrite (bool_decide_eq_false_2 (Some res = None)) by discriminate.
    rewrite andb_false_r. reflexivity.
  - rewrite (bool_decide_eq_false_2 (is_Some None)) by (intros [? ?]; discriminate).
    apply andb_false_r.
Qed.

Lemma result_without_metadata_witness :
  result (app Fixture.unparsed) = Some (Result.mk [Byte.x49] 1) /\
  savedStat Sample.t (app Fixture.unparsed) = None /\
  estimateInfo (app Fixture.unparsed) = None /\
  enabled CompressClicked Fixture.unparsed = false /\
  enabled RecompressClicked Fixture.unparsed = false.
Proof.
  split; [reflexivity|].
  exact (result_without_metadata_is_not_shown Sample.t Fixture.unparsed
           ltac:(eexists; reflexivity) eq_refl).
Defined.

(** X20. Choosing a file does not clear the metadata of the file chosen
    before, and a failed extraction leaves it in place: after the choice of
    an accepted file and the failure of its extraction, the chosen file is
    the new one while the file info is still that of the previous file, and
    the estimate block shows the estimate computed from it. *)
Theorem failed_extraction_keeps_previous_metadata
    (t : string -> string) (fetchFile : File.t -> settled bytes)
    (w : World) (later : File.t) (message : string)
    (info : FileInfo.t) (params : Resolved_params) :
  loading (app w) = false -> processing (app w) = false ->
  fileInfo (app w) = Some info ->
  resolveState (app w) = Some params ->
  isAudioFile later = true ->
  let w' := dispatch t fetchFile (ParseSettled (Rejected message))
              (dispatch t fetchFile (FileChosen later) w) in
  file (app w') = Some later /\
  fileInfo (app w') = Some info /\
  error (app w') = Some (t "parseFileError" +:+ " " +:+ message) /\
  exists e : EstimateInfo,
    estimateInfo (app w') = Some e /\
    estimatedSize e =
      Js.Math_round
        (Double.mul (Double.mul (inject_Z (r_bitrate params)) 125)
           (FileInfo.duration info)).
Proof.
  intros Hloading Hproc Hinfo Hres Haudio w'. unfold w', dispatch. cbn [enabled].
  rewrite Hloading. cbn [negb handle app fs runs].
  rewrite (handleFileSelect_audio t later _ Haudio). cbn [handleFileParsed].
  split; [reflexivity|]. split; [exact Hinfo|]. split; [reflexivity|].
  unfold estimateInfo.
  cbn [file fileInfo result processing selectedPreset customBitrate
         setFile setResult setError].
  rewrite Hinfo, Hproc, (resolveState_bitrate (app w) params Hres).
  eexists. split; reflexivity.
Qed.

Lemma failed_extraction_witness :
  let w' := dispatch Sample.t Sample.fetchFile (ParseSettled (Rejected "cannotParseAudio"))
              (dispatch Sample.t Sample.fetchFile (FileChosen Fixture.speech)
                 (mkWorld (Sample.parsed 10485760 240) ∅ [])) in
  file (app w') = Some Fixture.speech /\
  fileInfo (app w') = Some (FileInfo.mk "song.mp3" 10485760 240 350 44100 2) /\
  error (app w') = Some "parseFileError cannotParseAudio" /\
  exists e : EstimateInfo,
    estimateInfo (app w') = Some e /\ estimatedSize e = 3840000.
Proof.
  exact (failed_extraction_keeps_previous_metadata Sample.t Sample.fetchFile
           (mkWorld (Sample.parsed 10485760 240) ∅ []) Fixture.speech
           "cannotParseAudio" (FileInfo.mk "song.mp3" 10485760 240 350 44100 2)
           (mkParams 128 (Some 44100) (Some 2))
           eq_refl eq_refl eq_refl eq_refl eq_refl).
Defined.

Lemma parseAudioInfo_describes_file
    (t : string -> string) (host : Media.Host) (audioFile : File.t)
    (res : Media.Resources) (info : FileInfo.t) :
  (parseAudioInfo t host audioFile res).1 = Resolved info ->
  FileInfo.name info = File.name audioFile /\ FileInfo.size info = File.size audioFile.
Proof.
  unfold parseAudioInfo.
  destruct (Media.loadMetadata host audioFile) as [duration|]; [|discriminate].
  destruct (Media.readAsArrayBuffer host audioFile) as [b|]; [|discriminate].
  destruct (Media.decodeAudioData host b) as [[? ?]|]; cbn;
    intros [= <-]; split; reflexivity.
Qed.

(** X21. The file info is set by whichever extraction settles, not by the
    extraction of the file that is chosen: when a file is chosen, then
    another, and the extraction of the first fulfils after that, the chosen
    file is the second while the file info carries the name and the size of
    the first. *)
Theorem late_extraction_overwrites_metadata
    (t : string -> string) (fetchFile : File.t -> settled bytes)
    (w : World) (host : Media.Host) (res : Media.Resources)
    (first later : File.t) (info : FileInfo.t) :
  loading (app w) = false ->
  isAudioFile first = true -> isAudioFile later = true ->
  (parseAudioInfo t host first res).1 = Resolved info ->
  let w' := dispatch t fetchFile (ParseSettled (parseAudioInfo t host first res).1)
              (dispatch t fetchFile (FileChosen later)
                 (dispatch t fetchFile (FileChosen first) w)) in
  file (app w') = Some later /\
  fileInfo (app w') = Some info /\
  FileInfo.name info = File.name first /\
  FileInfo.size info = File.size first.
Proof.
  intros Hloading Hfirst Hlater Hparse w'.
  destruct (parseAudioInfo_describes_file t host first res info Hparse) as [Hn Hs].
  unfold w', dispatch. rewrite Hparse. cbn [enabled].
  rewrite Hloading. cbn [negb handle app fs runs].
  rewrite (handleFileSelect_audio t first _ Hfirst).
  cbn [loading setFile setResult setError]. rewrite Hloading.
  cbn [negb handle app fs runs].
  rewrite (handleFileSelect_audio t later _ Hlater). cbn [handleFileParsed].
  repeat split; assumption.
Qed.

Lemma late_extraction_witness :
  let w' := dispatch Sample.t Sample.fetchFile
              (ParseSettled
                 (parseAudioInfo Sample.t Sample.decodable Sample.song
                    (Media.mkResources 0 0)).1)
              (dispatch Sample.t Sample.fetchFile (FileChosen Fixture.speech)
                 (Sample.ready Sample.encoder)) in
  file (app w') = Some Fixture.speech /\
  fileInfo (app w') = Some (FileInfo.mk "song.mp3" 16 (1 # 1024) 131 48000 1) /\
  FileInfo.name (FileInfo.mk "song.mp3" 16 (1 # 1024) 131 48000 1) = File.name Sample.song /\
  FileInfo.size (FileInfo.mk "song.mp3" 16 (1 # 1024) 131 48000 1) = File.size Sample.song.
Proof.
  exact (late_extraction_overwrites_metadata Sample.t Sample.fetchFile
           (dispatch Sample.t Sample.fetchFile (LoadSettled (Resolved Sample.encoder))
              initialWorld)
           Sample.decodable (Media.mkResources 0 0) Sample.song Fixture.speech
           (FileInfo.mk "song.mp3" 16 (1 # 1024) 131 48000 1)
           eq_refl eq_refl eq_refl eq_refl).
Defined.

(** ** Acceptance of a chosen file *)

Lemma substring_suffix (base suffix : string) :
  String.substring (String.length base) (String.length suffix) (base +:+ suffix)
  = suffix.
Proof.
  induction base as [|c base IH]; [|exact IH].
  change ("" +:+ suffix) with suffix. cbn [String.length].
  induction suffix as [|c suffix IHs]; [reflexivity|].
  cbn [String.length String.substring]. rewrite IHs. reflexivity.
Qed.

Lemma length_append (a b : string) :
  String.length (a +:+ b) = (String.length a + String.length b)%nat.
Proof.
  induction a as [|c a IH]; [reflexivity|].
  change (String c a +:+ b) with (String c (a +:+ b)).
  cbn [String.length]. rewrite IH. reflexivity.
Qed.

Lemma endsWith_append (base suffix : string) : Js.endsWith (base +:+ suffix) suffix = true.
Proof.
  unfold Js.endsWith. rewrite length_append.
  destruct (Nat.leb_spec (String.length suffix) (String.length base + String.length suffix))
    as [_|Hlt]; [|lia].
  replace (String.length base + String.length suffix - String.length suffix)%nat
    with (String.length base) by lia.
  rewrite substring_suffix. apply String.eqb_refl.
Qed.

(** X22. A file whose name ends in [.mp3] is accepted whatever its type,
    also an empty one: it becomes the chosen file, the result and the error
    are cleared, and the metadata of the previous file stays until the
    extraction settles. *)
Theorem mp3_name_is_accepted
    (t : string -> string) (f : File.t) (base : string) (s : State) :
  File.name f = base +:+ ".mp3" ->
  file (handleFileSelect t f s) = Some f /\
  result (handleFileSelect t f s) = None /\
  error (handleFileSelect t f s) = None /\
  fileInfo (handleFileSelect t f s) = fileInfo s.
Proof.
  intros Hname.
  rewrite handleFileSelect_audio; [repeat split|].
  unfold isAudioFile. rewrite Hname, endsWith_append. apply orb_true_r.
Qed.

Lemma mp3_name_is_accepted_witness :
  file (handleFileSelect Sample.t Fixture.speech (Sample.compressed 1000 500))
    = Some Fixture.speech /\
  result (handleFileSelect Sample.t Fixture.speech (Sample.compressed 1000 500)) = None /\
  error (handleFileSelect Sample.t Fixture.speech (Sample.compressed 1000 500)) = None /\
  fileInfo (handleFileSelect Sample.t Fixture.speech (Sample.compressed 1000 500))
    = fileInfo (Sample.compressed 1000 500).
Proof.
  exact (mp3_name_is_accepted Sample.t Fixture.speech "speech.final"
           (Sample.compressed 1000 500) eq_refl).
Defined.

(** ** Localisation *)

(** X23. The chosen language survives a reload: after [setLanguage] with a
    non-empty language that has a table, a provider mounted on the storage
    it left starts in that language. *)
Theorem language_survives_reload
    (translations : string -> option (string -> option string))
    (lang : string) (p : I18n.Provider) :
  lang <> "" ->
  is_Some (translations lang) ->
  I18n.language (I18n.setLanguage lang p) = lang /\
  I18n.language (I18n.mount translations (I18n.localStorage (I18n.setLanguage lang p)))
    = lang.
Proof.
  intros Hne Htable. split; [reflexivity|].
  unfold I18n.mount, I18n.setLanguage, I18n.getInitialLanguage.
  cbn [I18n.language I18n.localStorage]. rewrite lookup_insert_eq.
  apply String.eqb_neq in Hne. rewrite Hne.
  rewrite bool_decide_eq_true_2 by exact Htable. reflexivity.
Qed.

Lemma language_survives_reload_witness :
  I18n.language (I18n.setLanguage "de" (I18n.mount Fixture.translations ∅)) = "de" /\
  I18n.language
    (I18n.mount Fixture.translations
       (I18n.localStorage (I18n.setLanguage "de" (I18n.mount Fixture.translations ∅))))
    = "de".
Proof.
  exact (language_survives_reload Fixture.translations "de"
           (I18n.mount Fixture.translations ∅)
           ltac:(discriminate) ltac:(eexists; reflexivity)).
Defined.

Lemma getInitialLanguage_supported
    (translations : string -> option (string -> option string))
    (storage : gmap string string) :
  I18n.getInitialLanguage translations storage = "en" \/
  is_Some (translations (I18n.getInitialLanguage translations storage)).
Proof.
  unfold I18n.getInitialLanguage.
  destruct (storage !! I18n.STORAGE_KEY) as [stored|]; [|left; reflexivity].
  destruct (negb (String.eqb stored "")); [|left; reflexivity].
  cbn [andb]. destruct (bool_decide (is_Some (translations stored))) eqn:Hdec.
  - right. apply bool_decide_eq_true in Hdec. exact Hdec.
  - left. reflexivity.
Qed.

(** X24. As long as there is an English table, a provider mounted on any
    storage - empty, or holding an unknown or an empty language - translates
    every key without throwing, and never to the empty string for a
    non-empty key: a key without a text is given back as it is. *)
Theorem mounted_provider_translates
    (translations : string -> option (string -> option string))
    (storage : gmap string string) (key : string) :
  is_Some (translations "en") ->
  exists text,
    I18n.t translations (I18n.mount translations storage) key = Some text /\
    (key <> "" -> text <> "").
Proof.
  intros Hen. unfold I18n.t, I18n.mount. cbn [I18n.language].
  assert (is_Some (translations (I18n.getInitialLanguage translations storage)))
    as [table Htable].
  { destruct (getInitialLanguage_supported translations storage) as [-> | Hs];
      assumption. }
  rewrite Htable. destruct (table key) as [text|].
  - destruct (String.eqb_spec text "") as [->|Hne]; eexists; split;
      try reflexivity; auto.
  - eexists. split; [reflexivity|]. auto.
Qed.

Lemma mounted_provider_translates_witness :
  exists text,
    I18n.t Fixture.translations
      (I18n.mount Fixture.translations (<[ "mp3-compress-language" := "xx" ]> ∅))
      "startCompress" = Some text /\
    ("startCompress" <> "" -> text <> "").
Proof.
  exact (mounted_provider_translates Fixture.translations
           (<[ "mp3-compress-language" := "xx" ]> ∅) "startCompress"
           ltac:(eexists; reflexivity)).
Defined.

Lemma handleDownload_name_without_extension_witness :
  handleDownload (setFile (Some Fixture.recording) (Sample.compressed 1000 500))
  = Some "recording_128kbps.mp3".
Proof.
  refine (handleDownload_name_without_extension
            (setFile (Some Fixture.recording) (Sample.compressed 1000 500))
            (Result.mk [] 500) Fixture.recording (mkParams 128 (Some 44100) (Some 2))
            eq_refl eq_refl eq_refl _).
  intros c Hin. cbn in Hin.
  repeat (destruct Hin as [<- | Hin]; [discriminate|]). contradiction.
Defined.

(** ** Outcome of the extraction *)

(** X25. The extraction fulfils exactly when the metadata loads and the
    file can be read - a failure to decode the samples never fails it. It
    rejects with the message of [cannotParseAudio] when the metadata does not
    load and with that of [cannotReadFile] when the file cannot be read. On
    every one of these paths the object URL has been revoked when the promise
    settles. *)
Theorem extraction_outcome
    (t : string -> string) (host : Media.Host) (audioFile : File.t)
    (res : Media.Resources) :
  ((exists info, (parseAudioInfo t host audioFile res).1 = Resolved info) <->
   is_Some (Media.loadMetadata host audioFile) /\
   is_Some (Media.readAsArrayBuffer host audioFile)) /\
  (Media.loadMetadata host audioFile = None ->
   (parseAudioInfo t host audioFile res).1 = Rejected (t "cannotParseAudio")) /\
  (is_Some (Media.loadMetadata host audioFile) ->
   Media.readAsArrayBuffer host audioFile = None ->
   (parseAudioInfo t host audioFile res).1 = Rejected (t "cannotReadFile")) /\
  Media.objectURLs (parseAudioInfo t host audioFile res).2 = Media.objectURLs res.
Proof.
  unfold parseAudioInfo.
  destruct (Media.loadMetadata host audioFile) as [duration|].
  - destruct (Media.readAsArrayBuffer host audioFile) as [b|].
    + destruct (Media.decodeAudioData host b) as [[? ?]|]; cbn;
        (split; [split; eauto|]); (split; [discriminate|]);
        (split; [discriminate|reflexivity]).
    + cbn. split; [split|].
      * intros [? ?]. discriminate.
      * intros [_ [? ?]]. discriminate.
      * split; [discriminate|]. split; reflexivity.
  - cbn. split; [split|].
    + intros [? ?]. discriminate.
    + intros [[? ?] _]. discriminate.
    + split; [reflexivity|]. split; [|reflexivity]. intros [? ?]. discriminate.
Qed.

Lemma extraction_outcome_witness :
  exists info,
    (parseAudioInfo Sample.t Sample.undecodable Sample.song (Media.mkResources 0 0)).1
      = Resolved info.
Proof.
  apply (proj2 (proj1 (extraction_outcome Sample.t Sample.undecodable Sample.song
                         (Media.mkResources 0 0)))).
  split; eexists; reflexivity.
Defined.
